(** * Pool-based sequential optimisation with a Gaussian-process surrogate

    A shallow embedding of the notebook
    [BOPlayground/StanleyStartup/SimpleGPyTorchScript.ipynb]: the two scaler
    classes ([TorchStandardScaler], [TorchNormalizer]), the acquisition
    function [UCB] and the optimisation loop of the last code cell.

    The notebook computes on [torch] tensors of [float64].  The tensor
    operations it calls are written out below once, over an arbitrary scalar
    type, and are then run at two of them:
    - [float], the kernel's binary64 numbers, on which every definition
      evaluates the way the notebook does (up to the order in which [torch]
      adds the terms of a sum);
    - [R], the real numbers, the exact arithmetic that the floating-point
      computation approximates, on which the algebraic laws are proved.

    The two classes and [UCB] are written once against an interface of
    tensor operations and read in two ways: on tensor values, where what a
    method computes is proved, and on a store of tensor objects, where
    [clone] allocates and [-=] overwrites, and where what a call leaves
    untouched is proved.  The two readings are shown to agree.

    The Gaussian process itself ([GPModel], [GaussianLikelihood],
    [fit_gpytorch_mll]) is code of gpytorch and botorch; the loop takes it as
    a function from the training data and the query points to a posterior. *)

From Stdlib Require Import ZArith Reals Lra Floats.
From stdpp Require Import base option list gmap.

Set Warnings "-inexact-float".

(** ** Scalars *)

Class Scalar (T : Type) : Type := {
  of_int : Z → T;          (* a Python int used as a number: 2, -100, a count *)
  tiny : T;                (* the literal 1e-10 *)
  sadd : T → T → T;
  ssub : T → T → T;
  smul : T → T → T;
  sdiv : T → T → T;
  ssqrt : T → T;
  sltb : T → T → bool;
  isnan : T → bool
}.

Declare Scope num_scope.
Delimit Scope num_scope with num.
Infix "⊕" := sadd (at level 50, left associativity) : num_scope.
Infix "⊖" := ssub (at level 50, left associativity) : num_scope.
Infix "⊗" := smul (at level 40, left associativity) : num_scope.
Infix "⊘" := sdiv (at level 40, left associativity) : num_scope.
Infix "≺?" := sltb (at level 70, no associativity) : num_scope.
Local Open Scope num_scope.

(** binary64: the dtype the notebook sets as default.  The conversion is
    the one of the integers the notebook uses (0, 2, -100 and the length of
    a tensor); [Uint63.of_Z] wraps from 2^63 on, which none of them
    reaches. *)
Definition float_of_Z (z : Z) : float :=
  match z with
  | Z.neg p => PrimFloat.opp (PrimFloat.of_uint63 (Uint63.of_Z (Z.pos p)))
  | _ => PrimFloat.of_uint63 (Uint63.of_Z z)
  end.

#[export] Instance float_scalar : Scalar float := {|
  of_int := float_of_Z;
  tiny := 1e-10%float;
  sadd := PrimFloat.add;
  ssub := PrimFloat.sub;
  smul := PrimFloat.mul;
  sdiv := PrimFloat.div;
  ssqrt := PrimFloat.sqrt;
  sltb := PrimFloat.ltb;
  isnan := PrimFloat.is_nan
|}.

(** Exact arithmetic.  Division by zero is the total [Rdiv] ([x / 0 = 0] in
    this library), so a statement over [R] is only read where its divisors
    are shown to be non-zero. *)
Definition Rltb (x y : R) : bool := if Rlt_dec x y then true else false.

#[export] Instance real_scalar : Scalar R := {|
  of_int := IZR;
  tiny := 1e-10%R;
  sadd := Rplus;
  ssub := Rminus;
  smul := Rmult;
  sdiv := Rdiv;
  ssqrt := R_sqrt.sqrt;
  sltb := Rltb;
  isnan := λ _, false
|}.

(** What the selection of the next candidate needs of the arithmetic: its
    comparison is a strict order. *)
Class OrderedScalar (T : Type) `{Scalar T} : Prop := {
  sltb_irrefl : ∀ a : T, (a ≺? a) = false;
  sltb_trans : ∀ a b c : T, (a ≺? b) = true → (b ≺? c) = true → (a ≺? c) = true
}.

(** ** Exceptions *)

Inductive error : Set :=
  | ShapeMismatch      (* operands that do not broadcast *)
  | IndexOutOfRange    (* an index tensor entry past the end *)
  | EmptyReduction     (* max, min or argmax over no element *)
  | NotFitted          (* a statistic read before fit (AttributeError) *)
  | BadReference       (* a location that holds no tensor *)
  | SurrogateFailure.  (* an exception out of gpytorch or botorch *)

Inductive result (A : Type) : Type :=
  | OK (a : A)
  | Raise (e : error).
Arguments OK {A} a.
Arguments Raise {A} e.

#[export] Instance result_ret : MRet result := λ A, OK.
#[export] Instance result_bind : MBind result := λ A B f m,
  match m with OK a => f a | Raise e => Raise e end.

#[export] Instance result_fmap : FMap result := λ A B f m,
  match m with OK a => OK (f a) | Raise e => Raise e end.

Definition or_raise {A} (e : error) (o : option A) : result A :=
  match o with Some a => OK a | None => Raise e end.

(** ** Tensors of rank at most two *)

(** A matrix is a list of rows; it is well formed when every row has
    [ncols] entries, which the statements below ask of their inputs. *)
Inductive tensor (T : Type) : Type :=
  | Scal (x : T)                                   (* shape [] *)
  | Vec (v : list T)                               (* shape [n] *)
  | Mat (ncols : nat) (rows : list (list T)).      (* shape [n, ncols] *)
Arguments Scal {T} x.
Arguments Vec {T} v.
Arguments Mat {T} ncols rows.

Section Tensor.
Context {T : Type} `{Scalar T}.

Definition rank (t : tensor T) : nat :=
  match t with Scal _ => 0 | Vec _ => 1 | Mat _ _ => 2 end.

Definition shape (t : tensor T) : list nat :=
  match t with
  | Scal _ => []
  | Vec v => [length v]
  | Mat D rows => [length rows; D]
  end.

(** *** Broadcasting

    Shapes are aligned at the right and padded with ones at the left;
    along each dimension the sizes agree or one of them is 1. *)
Definition as_mat (t : tensor T) : nat * list (list T) :=
  match t with
  | Scal x => (1, [[x]])
  | Vec v => (length v, [v])
  | Mat D rows => (D, rows)
  end.

Definition of_mat (rk D : nat) (rows : list (list T)) : tensor T :=
  match rk, rows with
  | 0, [[x]] => Scal x
  | 1, [v] => Vec v
  | _, _ => Mat D rows
  end.

Definition bdim (a b : nat) : result nat :=
  if decide (a = b) then OK a
  else if decide (a = 1) then OK b
  else if decide (b = 1) then OK a
  else Raise ShapeMismatch.

Definition expand {A} (n : nat) (l : list A) : list A :=
  match l with
  | [x] => replicate n x
  | _ => l
  end.

Definition broadcast (f : T → T → T) (a b : tensor T) : result (tensor T) :=
  let '(Da, ra) := as_mat a in
  let '(Db, rb) := as_mat b in
  D ← bdim Da Db;
  n ← bdim (length ra) (length rb);
  OK (of_mat (rank a `max` rank b) D
        (zip_with (λ r1 r2, zip_with f (expand D r1) (expand D r2))
                  (expand n ra) (expand n rb))).

(** [a op= b]: the result is written into [a], whose shape cannot change. *)
Definition broadcast_inplace (f : T → T → T) (a b : tensor T) : result (tensor T) :=
  r ← broadcast f a b;
  if decide (shape r = shape a) then OK r else Raise ShapeMismatch.

Definition tmap (f : T → T) (t : tensor T) : tensor T :=
  match t with
  | Scal x => Scal (f x)
  | Vec v => Vec (fmap (M:=list) f v)
  | Mat D rows => Mat D (fmap (M:=list) (fmap (M:=list) f) rows)
  end.

(** *** Reductions along dimension 0 *)
Definition col (j : nat) (rows : list (list T)) : list T :=
  (λ r, nth j r (of_int 0)) <$> rows.

Definition vsum (v : list T) : T := foldl sadd (of_int 0) v.

Definition vmean (v : list T) : T := vsum v ⊘ of_int (Z.of_nat (length v)).

(** [var] and [std] with [unbiased=True] divide by [n - 1], with
    [unbiased=False] by [n]. *)
Definition vvar (unbiased : bool) (v : list T) : T :=
  let m := vmean v in
  vsum ((λ x, (x ⊖ m) ⊗ (x ⊖ m)) <$> v)
  ⊘ of_int (Z.max 0 (Z.of_nat (length v) - (if unbiased then 1 else 0))).

Definition vstd (unbiased : bool) (v : list T) : T := ssqrt (vvar unbiased v).

Definition smax (a b : T) : T :=
  if isnan a then a else if isnan b then b else if a ≺? b then b else a.
Definition smin (a b : T) : T :=
  if isnan a then a else if isnan b then b else if b ≺? a then b else a.

Definition vextreme (pick : T → T → T) (v : list T) : result T :=
  match v with
  | [] => Raise EmptyReduction
  | x :: v' => OK (foldl pick x v')
  end.

(** [t.mean(0, keepdim)], [t.std(0, unbiased, keepdim)] *)
Definition reduce0 (f : list T → T) (keepdim : bool) (t : tensor T) : tensor T :=
  match t with
  | Scal x => Scal (f [x])
  | Vec v => if keepdim then Vec [f v] else Scal (f v)
  | Mat D rows =>
      let r := (λ j, f (col j rows)) <$> seq 0 D in
      if keepdim then Mat D [r] else Vec r
  end.

(** [torch.max(t, dim=0).values], [torch.min(t, dim=0).values]: an error
    when dimension 0 has no entry *)
Definition extreme0 (pick : T → T → T) (t : tensor T) : result (tensor T) :=
  match t with
  | Scal x => OK (Scal x)
  | Vec v => Scal <$> vextreme pick v
  | Mat D rows =>
      match rows with
      | [] => Raise EmptyReduction
      | _ => Vec <$> mapM (λ j, vextreme pick (col j rows)) (seq 0 D)
      end
  end.

(** *** Indexing with an index tensor *)

(** [t[idx]]: the entries (rows) of [t] at the positions [idx], copied. *)
Definition index_select (t : tensor T) (idx : list nat) : result (tensor T) :=
  match t with
  | Scal _ => Raise IndexOutOfRange
  | Vec v => Vec <$> or_raise IndexOutOfRange (mapM (λ i, v !! i) idx)
  | Mat D rows => Mat D <$> or_raise IndexOutOfRange (mapM (λ i, rows !! i) idx)
  end.

(** [t[idx] = c] *)
Definition fill {A} (c : A) (l : list A) (idx : list nat) : list A :=
  foldl (λ l i, <[i := c]> l) l idx.

Definition index_fill (t : tensor T) (idx : list nat) (c : T) : result (tensor T) :=
  match t with
  | Scal _ => Raise IndexOutOfRange
  | Vec v =>
      if decide (Forall (λ i, i < length v) idx)
      then OK (Vec (fill c v idx))
      else Raise IndexOutOfRange
  | Mat D rows =>
      if decide (Forall (λ i, i < length rows) idx)
      then OK (Mat D (fill (replicate D c) rows idx))
      else Raise IndexOutOfRange
  end.

(** *** argmax

    The position of the greatest entry of the flattened tensor; among equal
    entries the first one; a NaN counts as greater than every number. *)
Definition beats (x best : T) : bool :=
  negb (isnan best) && (isnan x || (best ≺? x)).

Fixpoint argmax_from (best_i : nat) (best : T) (i : nat) (v : list T) : nat :=
  match v with
  | [] => best_i
  | x :: v' =>
      if beats x best then argmax_from i x (S i) v'
      else argmax_from best_i best (S i) v'
  end.

Definition vargmax (v : list T) : result nat :=
  match v with
  | [] => Raise EmptyReduction
  | x :: v' => OK (argmax_from 0 x 1 v')
  end.

Definition flatten (t : tensor T) : list T :=
  match t with
  | Scal x => [x]
  | Vec v => v
  | Mat _ rows => concat rows
  end.

Definition argmax (t : tensor T) : result nat := vargmax (flatten t).

End Tensor.

(** ** The tensor operations the notebook calls

    The classes below are written once against this interface, the way the
    Python methods are written against [torch], and run in two ways: on
    tensor values ([M := result]), and on a store of tensor objects
    ([M := heapM]) in which [clone] allocates and [-=] overwrites. *)

Class Torch (M : Type → Type) (ref T : Type) : Type := {
  throw : ∀ {A}, error → M A;
  clone : ref → M ref;                        (* x.clone() *)
  mean_dim0 : bool → ref → M ref;             (* x.mean(0, keepdim) *)
  std_dim0 : bool → bool → ref → M ref;       (* x.std(0, unbiased, keepdim) *)
  max_dim0 : ref → M ref;                     (* torch.max(x, dim=0).values *)
  min_dim0 : ref → M ref;                     (* torch.min(x, dim=0).values *)
  isub : ref → ref → M ref;                   (* x -= y, which evaluates to x *)
  idiv : ref → ref → M ref;                   (* x /= y *)
  imul : ref → ref → M ref;                   (* x *= y *)
  iadd : ref → ref → M ref;                   (* x += y *)
  tsub : ref → ref → M ref;                   (* x - y *)
  tdiv : ref → ref → M ref;                   (* x / y *)
  tadd : ref → ref → M ref;                   (* x + y *)
  add_scalar : ref → T → M ref;               (* x + c *)
  rmul_scalar : T → ref → M ref               (* c * x *)
}.

(** An attribute of [self] that exists only once a fit has set it. *)
Definition attr {M ref T} `{Torch M ref T, MRet M} (o : option ref) : M ref :=
  match o with Some r => mret r | None => throw NotFitted end.

(** On values: nothing is shared, an in-place operation yields the new value. *)
#[export] Instance torch_value {T} `{Scalar T} : Torch result (tensor T) T := {|
  throw := λ A e, @Raise A e;
  clone := λ x, @OK (tensor T) x;
  mean_dim0 := λ keepdim x, @OK (tensor T) (reduce0 vmean keepdim x);
  std_dim0 := λ unbiased keepdim x, @OK (tensor T) (reduce0 (vstd unbiased) keepdim x);
  max_dim0 := extreme0 smax;
  min_dim0 := extreme0 smin;
  isub := broadcast_inplace ssub;
  idiv := broadcast_inplace sdiv;
  imul := broadcast_inplace smul;
  iadd := broadcast_inplace sadd;
  tsub := broadcast ssub;
  tdiv := broadcast sdiv;
  tadd := broadcast sadd;
  add_scalar := λ x c, @OK (tensor T) (tmap (λ a, a ⊕ c) x);
  rmul_scalar := λ c x, @OK (tensor T) (tmap (λ a, c ⊗ a) x)
|}.

(** On a store: a reference is a location, a fresh tensor gets a location
    that was not in use, and an in-place operation overwrites its target. *)
Abbreviation loc := positive.
Abbreviation heap T := (gmap loc (tensor T)).

(** A computation on the store returns or raises, and leaves a store either
    way: what was written before an exception stays written. *)
Definition heapM (T : Type) (A : Type) : Type := heap T → result A * heap T.

#[export] Instance heapM_ret {T} : MRet (heapM T) := λ A a h, (OK a, h).
#[export] Instance heapM_bind {T} : MBind (heapM T) := λ A B f m h,
  match m h with
  | (OK a, h') => f a h'
  | (Raise e, h') => (Raise e, h')
  end.

Section Store.
Context {T : Type} `{Scalar T}.

Definition alloc (t : tensor T) : heapM T loc :=
  λ h, let l := fresh (dom h) in (OK l, <[l := t]> h).

Definition load (l : loc) : heapM T (tensor T) :=
  λ h, (or_raise BadReference (h !! l), h).

Definition store (l : loc) (t : tensor T) : heapM T loc :=
  λ h, (OK l, <[l := t]> h).

Definition lift {A} (r : result A) : heapM T A := λ h, (r, h).

Definition fail {A} (e : error) : heapM T A := λ h, (Raise e, h).

(** a new tensor computed from one or two existing ones *)
Definition fresh1 (f : tensor T → result (tensor T)) (x : loc) : heapM T loc :=
  a ← load x; r ← lift (f a); alloc r.
Definition fresh2 (f : tensor T → tensor T → result (tensor T)) (x y : loc) : heapM T loc :=
  a ← load x; b ← load y; r ← lift (f a b); alloc r.
(** the first operand overwritten *)
Definition inplace2 (f : tensor T → tensor T → result (tensor T)) (x y : loc) : heapM T loc :=
  a ← load x; b ← load y; r ← lift (f a b); store x r.

#[export] Instance torch_heap : Torch (heapM T) loc T := {|
  throw := @fail;
  clone := fresh1 OK;
  mean_dim0 := λ keepdim, fresh1 (λ x, OK (reduce0 vmean keepdim x));
  std_dim0 := λ unbiased keepdim, fresh1 (λ x, OK (reduce0 (vstd unbiased) keepdim x));
  max_dim0 := fresh1 (extreme0 smax);
  min_dim0 := fresh1 (extreme0 smin);
  isub := inplace2 (broadcast_inplace ssub);
  idiv := inplace2 (broadcast_inplace sdiv);
  imul := inplace2 (broadcast_inplace smul);
  iadd := inplace2 (broadcast_inplace sadd);
  tsub := fresh2 (broadcast ssub);
  tdiv := fresh2 (broadcast sdiv);
  tadd := fresh2 (broadcast sadd);
  add_scalar := λ x c, fresh1 (λ a, OK (tmap (λ a, a ⊕ c) a)) x;
  rmul_scalar := λ c, fresh1 (λ a, OK (tmap (λ a, c ⊗ a) a))
|}.
End Store.

(** ** class TorchStandardScaler *)

Module TorchStandardScaler.
Record t (ref : Type) : Type := { mean : option ref; std : option ref }.
Arguments mean {ref} _.
Arguments std {ref} _.

(** [TorchStandardScaler()]: an instance with no attribute yet. *)
Definition new {ref} : t ref := {| mean := None; std := None |}.

Section Methods.
Context {M : Type → Type} {ref T : Type}.
Context `{Scalar T, MBind M, MRet M, !Torch M ref T}.

Definition fit (self : t ref) (x : ref) : M (t ref) :=
  x ← clone x;
  m ← mean_dim0 true x;
  let self := {| mean := Some m; std := std self |} in
  s ← std_dim0 false true x;
  let self := {| mean := mean self; std := Some s |} in
  mret self.

Definition transform (self : t ref) (x : ref) : M ref :=
  x ← clone x;
  m ← attr (mean self);
  x ← isub x m;
  s ← attr (std self);
  d ← add_scalar s tiny;
  x ← idiv x d;
  mret x.

Definition fit_transform (self : t ref) (x : ref) : M (t ref * ref) :=
  x ← clone x;
  m ← mean_dim0 true x;
  let self := {| mean := Some m; std := std self |} in
  s ← std_dim0 false true x;
  let self := {| mean := mean self; std := Some s |} in
  m ← attr (mean self);
  x ← isub x m;
  s ← attr (std self);
  d ← add_scalar s tiny;
  x ← idiv x d;
  mret (self, x).

Definition reverse (self : t ref) (x : ref) : M ref :=
  x ← clone x;
  s ← attr (std self);
  d ← add_scalar s tiny;
  x ← imul x d;
  m ← attr (mean self);
  x ← iadd x m;
  mret x.
End Methods.
End TorchStandardScaler.

(** ** class TorchNormalizer *)

Module TorchNormalizer.
Record t (ref : Type) : Type := { max : option ref; min : option ref }.
Arguments max {ref} _.
Arguments min {ref} _.

Definition new {ref} : t ref := {| max := None; min := None |}.

Section Methods.
Context {M : Type → Type} {ref T : Type}.
Context `{Scalar T, MBind M, MRet M, !Torch M ref T}.

Definition fit (self : t ref) (x : ref) : M (t ref) :=
  mx ← max_dim0 x;
  let self := {| max := Some mx; min := min self |} in
  mn ← min_dim0 x;
  let self := {| max := max self; min := Some mn |} in
  mret self.

Definition transform (self : t ref) (x : ref) : M ref :=
  c ← clone x;
  mn ← attr (min self);
  a ← tsub c mn;
  mx ← attr (max self);
  mn ← attr (min self);
  b ← tsub mx mn;
  tdiv a b.

Definition fit_transform (self : t ref) (x : ref) : M (t ref * ref) :=
  mx ← max_dim0 x;
  let self := {| max := Some mx; min := min self |} in
  mn ← min_dim0 x;
  let self := {| max := max self; min := Some mn |} in
  c ← clone x;
  mn ← attr (min self);
  a ← tsub c mn;
  mx ← attr (max self);
  mn ← attr (min self);
  b ← tsub mx mn;
  r ← tdiv a b;
  mret (self, r).
End Methods.
End TorchNormalizer.

(** ** def UCB(pred, epsilon=2) *)

(** What the loop reads of the [MultivariateNormal] that the model returns. *)
Record Posterior (ref : Type) : Type := { mean : ref; stddev : ref }.
Arguments mean {ref} _.
Arguments stddev {ref} _.

Section Acquisition.
Context {M : Type → Type} {ref T : Type}.
Context `{Scalar T, MBind M, MRet M, !Torch M ref T}.

Definition default_epsilon : T := of_int 2.

Definition UCB (pred : Posterior ref) (epsilon : T) : M ref :=
  e ← rmul_scalar epsilon (stddev pred);
  tadd (mean pred) e.
End Acquisition.

(** ** The optimisation campaign (last code cell) *)

(** the score written over the evaluated indices: [acqf_vals[idx] = -100] *)
Definition sentinel {T} `{Scalar T} : T := of_int (-100).

Section Campaign.
Context {T : Type} `{Scalar T}.

(** The surrogate: [GPModel(X, y, likelihood)] fitted by [fit_gpytorch_mll],
    and the fitted model called on query points. *)
Context {GP : Type}.
Variable fit_gp : tensor T → tensor T → result GP.
Variable predict : GP → tensor T → result (Posterior (tensor T)).

(** [torch.randperm(N)] under the seed set by [set_seeds(120)]. *)
Variable randperm : nat → list nat.

(** The candidate pool [X_], [y_] and its size [N = len(df)]. *)
Variable N : nat.
Variables X_ y_ : tensor T.

Variables op_budget n_initial : nat.

(** The loop variables [idx], [X], [y]. *)
Definition state : Type := list nat * tensor T * tensor T.

Definition evaluated (st : state) : list nat := st.1.1.

(** [idx = torch.randperm(N)[:n_initial]; X = X_.clone()[idx]; y = y_.clone()[idx]] *)
Definition initial : result state :=
  let idx := take n_initial (randperm N) in
  Xc ← clone X_;
  X ← index_select Xc idx;
  yc ← clone y_;
  y ← index_select yc idx;
  OK (idx, X, y).

(** The scores of one pass, after the evaluated ones are overwritten. *)
Definition masked_scores (pred : Posterior (tensor T)) (idx : list nat)
  : result (tensor T) :=
  acqf_vals ← UCB pred default_epsilon;
  index_fill acqf_vals idx sentinel.

(** One pass of [for trial in trange(op_budget)]. *)
Definition trial (TorchStd : TorchStandardScaler.t (tensor T)) (st : state)
  : result state :=
  let '(idx, X, y) := st in
  X ← TorchStandardScaler.transform TorchStd X;
  '(_, y) ← TorchStandardScaler.fit_transform TorchStandardScaler.new y;
  gp ← fit_gp X y;
  Q ← TorchStandardScaler.transform TorchStd X_;
  pred ← predict gp Q;
  acqf_vals ← masked_scores pred idx;
  best ← argmax acqf_vals;
  let idx := idx ++ [best] in
  X ← index_select X_ idx;
  y ← index_select y_ idx;
  OK (idx, X, y).

Fixpoint trials (TorchStd : TorchStandardScaler.t (tensor T)) (budget : nat)
    (st : state) : result state :=
  match budget with
  | 0 => OK st
  | S budget => st ← trial TorchStd st; trials TorchStd budget st
  end.

(** [TorchStd.fit(X_)], the initial sample and [budget] passes of the loop. *)
Definition run (budget : nat) : result state :=
  TorchStd ← TorchStandardScaler.fit TorchStandardScaler.new X_;
  st ← initial;
  trials TorchStd budget st.

Definition campaign : result state := run op_budget.
End Campaign.

(** ** Vocabulary of the statements *)

Section Rows.
Context {T : Type} `{Scalar T}.
Implicit Types (m sd r : list T) (rows xs : list (list T)).

(** the statistics of the columns of a matrix *)
Definition col_stat (f : list T → T) (D : nat) rows : list T :=
  (λ j, f (col j rows)) <$> seq 0 D.

(** the scaler that [fit] leaves behind on a matrix *)
Definition fitted (D : nat) rows : TorchStandardScaler.t (tensor T) :=
  {| TorchStandardScaler.mean := Some (Mat D [col_stat vmean D rows]);
     TorchStandardScaler.std := Some (Mat D [col_stat (vstd false) D rows]) |}.

(** the affine map that [transform] applies to a row *)
Definition scale_row m sd (row : list T) : list T :=
  zip_with sdiv (zip_with ssub row m) ((λ a, a ⊕ tiny) <$> sd).
Definition unscale_row m sd (row : list T) : list T :=
  zip_with sadd (zip_with smul row ((λ a, a ⊕ tiny) <$> sd)) m.

(** the map that [TorchNormalizer.transform] applies to a row *)
Definition norm_row mx mn (row : list T) : list T :=
  zip_with sdiv (zip_with ssub row mn) (zip_with ssub mx mn).

End Rows.

(** ** Column statistics in exact arithmetic

    The mean and the population (divide by [n]) variance and standard
    deviation of a column, as the design document words them. *)

Definition Rsum (l : list R) : R := foldr Rplus 0%R l.
Definition pop_mean (l : list R) : R := (Rsum l / INR (length l))%R.
Definition pop_var (l : list R) : R :=
  (Rsum ((λ x, (x - pop_mean l) * (x - pop_mean l)) <$> l) / INR (length l))%R.
Definition pop_std (l : list R) : R := R_sqrt.sqrt (pop_var l).

(** ** Sample data *)

(** a matrix with a constant first column, in both arithmetics *)
Definition sample_real : list (list R) := [[5; 1]; [5; 3]]%R.
Definition sample_float : list (list float) := [[5; 1]; [5; 3]]%float.

(** a single constant column *)
Definition constant_column : tensor float := Mat 1 [[5]; [5]]%float.

(** a store that holds one array of the caller *)
Definition caller_heap : heap float := {[ 1%positive := constant_column ]}.

(** [|a - b| <= tol] on binary64 *)
Definition within (tol a b : float) : bool :=
  PrimFloat.leb (PrimFloat.abs (PrimFloat.sub a b)) tol.

(** ** The methods of the two classes, as calls on a store *)

Inductive method : Set :=
  | StdFit | StdTransform | StdFitTransform | StdReverse
  | NormFit | NormTransform | NormFitTransform.

(** What a call leaves behind: the tensors it stored in [self] and the
    tensor it returned. *)
Record outcome : Set := { stored : list loc; returned : option loc }.

Definition new_tensors (o : outcome) : list loc :=
  stored o ++ option_list (returned o).

Section Invoke.
Context {T : Type} `{Scalar T}.

Definition std_stats (s : TorchStandardScaler.t loc) : list loc :=
  option_list (TorchStandardScaler.mean s) ++ option_list (TorchStandardScaler.std s).
Definition norm_stats (s : TorchNormalizer.t loc) : list loc :=
  option_list (TorchNormalizer.max s) ++ option_list (TorchNormalizer.min s).

Definition invoke (c : method) (std : TorchStandardScaler.t loc)
    (norm : TorchNormalizer.t loc) (x : loc) : heapM T outcome :=
  match c with
  | StdFit =>
      s ← TorchStandardScaler.fit std x;
      mret {| stored := std_stats s; returned := None |}
  | StdTransform =>
      r ← TorchStandardScaler.transform std x;
      mret {| stored := []; returned := Some r |}
  | StdFitTransform =>
      '(s, r) ← TorchStandardScaler.fit_transform std x;
      mret {| stored := std_stats s; returned := Some r |}
  | StdReverse =>
      r ← TorchStandardScaler.reverse std x;
      mret {| stored := []; returned := Some r |}
  | NormFit =>
      s ← TorchNormalizer.fit norm x;
      mret {| stored := norm_stats s; returned := None |}
  | NormTransform =>
      r ← TorchNormalizer.transform norm x;
      mret {| stored := []; returned := Some r |}
  | NormFitTransform =>
      '(s, r) ← TorchNormalizer.fit_transform norm x;
      mret {| stored := norm_stats s; returned := Some r |}
  end.
End Invoke.

(** ** Assumptions on the surrogate and invariants of the loop *)

Section CampaignVocabulary.
Context {T : Type} `{Scalar T} {GP : Type}.
Variable fit_gp : tensor T → tensor T → result GP.
Variable predict : GP → tensor T → result (Posterior (tensor T)).

(** The surrogate raises nothing, and its posterior over [n] query points is
    a pair of vectors of [n] entries (the mean and the standard deviation of
    a [MultivariateNormal] over the queries). *)
Definition surrogate_ok : Prop :=
  (∀ X y, ∃ gp, fit_gp X y = OK gp)
  ∧ (∀ gp D Q, ∃ m s,
       predict gp (Mat D Q) = OK {| mean := Vec m; stddev := Vec s |}
       ∧ length m = length Q ∧ length s = length Q).

(** Every score the surrogate can lead to beats the sentinel in the scan of
    [argmax]: it is greater than -100, or a NaN. *)
Definition above_sentinel : Prop :=
  ∀ gp Q m s,
    predict gp Q = OK {| mean := Vec m; stddev := Vec s |} →
    Forall (λ x, beats x sentinel = true)
           (zip_with (λ a b, a ⊕ default_epsilon ⊗ b) m s).

(** The loop variables are a list of pool indices, a matrix of [D] columns
    and a vector. *)
Definition state_ok (N D : nat) (st : @state T) : Prop :=
  ∃ idx X y, st = (idx, Mat D X, Vec y)
    ∧ Forall (λ i, i < N) idx ∧ Forall (λ row, length row = D) X.
End CampaignVocabulary.

(** ** A sample campaign *)

(** A surrogate that returns the same mean [mu] and deviation [sigma] at
    every query point, whatever it was trained on. *)
Definition flat_fit {T} (X y : tensor T) : result unit := OK tt.

Definition flat_predict {T} (mu sigma : T) (gp : unit) (Q : tensor T)
  : result (Posterior (tensor T)) :=
  let n := match Q with Scal _ => 1 | Vec v => length v | Mat _ rows => length rows end in
  OK {| mean := Vec (replicate n mu); stddev := Vec (replicate n sigma) |}.

(** a draw of [torch.randperm(3)] *)
Definition sample_randperm (N : nat) : list nat := [2; 0; 1].

(** a pool of three candidates with two features *)
Definition pool_rows_float : list (list float) := [[0; 0]; [1; 0]; [0; 1]]%float.
Definition pool_ys_float : list float := [1; 2; 3]%float.

(** the campaign over the sample pool on binary64 *)
Definition sample_campaign (mu sigma : float) (op_budget n_initial : nat)
  : result (list nat) :=
  evaluated
  <$> campaign flat_fit (flat_predict mu sigma) sample_randperm 3
        (Mat 2 pool_rows_float) (Vec pool_ys_float) op_budget n_initial.

(** a posterior over three candidates, in exact arithmetic *)
Definition sample_posterior : Posterior (tensor R) :=
  {| mean := Vec [1; 2; 3]%R; stddev := Vec [0.5; 0.5; 1]%R |}.

(** ** Binary64 numbers *)

(** a binary64 number that is neither an infinity nor a NaN *)
Definition finite_float (x : float) : Prop :=
  match Prim2SF x with
  | SpecFloat.S754_zero _ | SpecFloat.S754_finite _ _ _ => True
  | _ => False
  end.

(** a binary64 number other than the negative zero *)
Definition not_negative_zero (x : float) : Prop :=
  Prim2SF x ≠ SpecFloat.S754_zero true.

(** ** The two readings side by side *)

Section Agreement.
Context {T : Type}.

(** an attribute of [self] on the store and its value *)
Definition attr_at (h : heap T) (o : option loc) (v : option (tensor T)) : Prop :=
  match o, v with
  | Some l, Some t => h !! l = Some t
  | None, None => True
  | _, _ => False
  end.

Definition std_at (h : heap T) (s : TorchStandardScaler.t loc)
    (sv : TorchStandardScaler.t (tensor T)) : Prop :=
  attr_at h (TorchStandardScaler.mean s) (TorchStandardScaler.mean sv)
  ∧ attr_at h (TorchStandardScaler.std s) (TorchStandardScaler.std sv).

Definition norm_at (h : heap T) (s : TorchNormalizer.t loc)
    (sv : TorchNormalizer.t (tensor T)) : Prop :=
  attr_at h (TorchNormalizer.max s) (TorchNormalizer.max sv)
  ∧ attr_at h (TorchNormalizer.min s) (TorchNormalizer.min sv).

(** A run on the store and a run on values agree: both raise the same
    exception, or both return and what the store holds at the end is what
    the run on values returned. *)
Definition agree {A B} (rel : heap T → A → B → Prop)
    (on_store : result A * heap T) (on_values : result B) : Prop :=
  match on_store, on_values with
  | (OK a, h'), OK b => rel h' a b
  | (Raise e, _), Raise e' => e = e'
  | _, _ => False
  end.

Definition tensor_at (h : heap T) (l : loc) (t : tensor T) : Prop :=
  h !! l = Some t.
End Agreement.

(** ** The running best response (last code cell)

    [np.maximum.accumulate(y.detach().numpy())]: the first entry is the
    first response, each later one is [np.maximum] of the entry before it
    and the next response.  [np.maximum] returns the operand that is a NaN
    when there is one, the greater operand otherwise, and the second
    operand when the two compare equal (which tells only the two zeros of
    binary64 apart). *)
Section Trace.
Context {T : Type} `{Scalar T}.

Definition np_maximum (a b : T) : T :=
  if isnan a then a else if isnan b then b else if b ≺? a then a else b.

Fixpoint accumulate_from (best : T) (y : list T) : list T :=
  match y with
  | [] => []
  | x :: y' => np_maximum best x :: accumulate_from (np_maximum best x) y'
  end.

Definition maximum_accumulate (y : list T) : list T :=
  match y with
  | [] => []
  | x :: y' => x :: accumulate_from x y'
  end.
End Trace.

(** ** Vocabulary of the further properties *)

(** the extreme of a column that has an entry *)
Definition column_extreme {T} `{Scalar T} (pick : T → T → T) (c : list T) : T :=
  match c with
  | [] => of_int 0
  | x :: v => foldl pick x v
  end.

(** the training data are the pool entries at the evaluated indices *)
Definition pulled {T} `{Scalar T} (X_ y_ : tensor T) (st : @state T) : Prop :=
  index_select X_ (evaluated st) = OK st.1.2
  ∧ index_select y_ (evaluated st) = OK st.2.

(** the sample pool in exact arithmetic *)
Definition pool_rows_real : list (list R) := [[0; 0]; [1; 0]; [0; 1]]%R.
Definition pool_ys_real : list R := [1; 2; 3]%R.

(** * Properties *)

(** ** Broadcasting on the shapes the notebook uses *)

Section BroadcastFacts.
Context {T : Type} `{Scalar T}.
Implicit Types (f : T → T → T) (u v r : list T) (rows : list (list T)).

Lemma expand_length_id {A} (l : list A) : expand (length l) l = l.
Proof. by destruct l as [|x [|y l]]. Qed.

Lemma bdim_same n : bdim n n = OK n.
Proof. unfold bdim. by rewrite decide_True. Qed.

Lemma bdim_one_r n : bdim n 1 = OK n.
Proof. unfold bdim. repeat case_decide; congruence. Qed.

(** [Vec u op Vec v], equal lengths *)
Lemma broadcast_vec f u v :
  length u = length v →
  broadcast f (Vec u) (Vec v) = OK (Vec (zip_with f u v)).
Proof.
  intros E. unfold broadcast. cbn [as_mat]. rewrite E, !bdim_same. simpl.
  rewrite <- E at 1. by rewrite !expand_length_id.
Qed.

(** [Vec v op Vec [m]]: the one entry against every entry of [v] *)
Lemma broadcast_vec_one f v m :
  broadcast f (Vec v) (Vec [m]) = OK (Vec ((λ x, f x m) <$> v)).
Proof.
  unfold broadcast. cbn [as_mat]. rewrite !bdim_one_r. simpl.
  rewrite expand_length_id. f_equal. f_equal.
  by rewrite zip_with_replicate_r_eq.
Qed.

(** a matrix against one row, given as a [1 × D] matrix or as a vector *)
Lemma broadcast_rows f D rows r b :
  as_mat b = (D, [r]) →
  Forall (λ row, length row = D) rows → length r = D →
  broadcast f (Mat D rows) b = OK (Mat D ((λ row, zip_with f row r) <$> rows)).
Proof.
  intros Eb Hrows Hr. unfold broadcast. cbn [as_mat]. rewrite Eb.
  rewrite bdim_same, bdim_one_r.
  replace (rank (Mat D rows) `max` rank b) with 2 by (destruct b; done).
  simpl. f_equal. f_equal.
  rewrite expand_length_id, zip_with_replicate_r_eq by done.
  apply Forall_fmap_ext_1.
  eapply Forall_impl; [exact Hrows|]. intros row E; simpl.
  simpl in E. rewrite <- E at 1. rewrite <- Hr. by rewrite !expand_length_id.
Qed.

Lemma broadcast_inplace_vec f u v :
  length u = length v →
  broadcast_inplace f (Vec u) (Vec v) = OK (Vec (zip_with f u v)).
Proof.
  intros E. unfold broadcast_inplace. rewrite broadcast_vec by done. simpl.
  rewrite decide_True; [done|]. simpl. by rewrite length_zip_with_l_eq.
Qed.

Lemma broadcast_inplace_vec_one f v m :
  broadcast_inplace f (Vec v) (Vec [m]) = OK (Vec ((λ x, f x m) <$> v)).
Proof.
  unfold broadcast_inplace. rewrite broadcast_vec_one. simpl.
  rewrite decide_True; [done|]. simpl. by rewrite length_fmap.
Qed.

Lemma broadcast_inplace_rows f D rows r b :
  as_mat b = (D, [r]) →
  Forall (λ row, length row = D) rows → length r = D →
  broadcast_inplace f (Mat D rows) b
  = OK (Mat D ((λ row, zip_with f row r) <$> rows)).
Proof.
  intros. unfold broadcast_inplace. erewrite broadcast_rows by done. simpl.
  rewrite decide_True; [done|]. simpl. by rewrite length_fmap.
Qed.
End BroadcastFacts.

(** ** The scalers on a matrix and on a vector, step by step *)

Section ScalerFacts.
Context {T : Type} `{Scalar T}.
Implicit Types (m sd r : list T) (rows xs : list (list T)).

Lemma length_col_stat f D rows : length (col_stat f D rows) = D.
Proof. unfold col_stat. by rewrite length_fmap, length_seq. Qed.

Lemma lookup_col_stat f D rows j :
  j < D → col_stat f D rows !! j = Some (f (col j rows)).
Proof.
  intros Hj. unfold col_stat. rewrite list_lookup_fmap, lookup_seq_lt by done.
  done.
Qed.

Lemma length_scale_row m sd row D :
  length row = D → length m = D → length sd = D →
  length (scale_row m sd row) = D.
Proof.
  intros. unfold scale_row.
  rewrite !length_zip_with, length_fmap. lia.
Qed.

Lemma length_unscale_row m sd row D :
  length row = D → length m = D → length sd = D →
  length (unscale_row m sd row) = D.
Proof.
  intros. unfold unscale_row.
  rewrite !length_zip_with, length_fmap. lia.
Qed.

Lemma lookup_scale_row m sd row j v mj sj :
  row !! j = Some v → m !! j = Some mj → sd !! j = Some sj →
  scale_row m sd row !! j = Some ((v ⊖ mj) ⊘ (sj ⊕ tiny)).
Proof.
  intros Hv Hm Hs. unfold scale_row.
  rewrite !lookup_zip_with, list_lookup_fmap, Hv, Hm, Hs. done.
Qed.

Lemma lookup_unscale_row m sd row j v mj sj :
  row !! j = Some v → m !! j = Some mj → sd !! j = Some sj →
  unscale_row m sd row !! j = Some (v ⊗ (sj ⊕ tiny) ⊕ mj).
Proof.
  intros Hv Hm Hs. unfold unscale_row.
  rewrite !lookup_zip_with, list_lookup_fmap, Hv, Hm, Hs. done.
Qed.

(** *** TorchStandardScaler on a matrix *)

Lemma std_fit_mat (self : TorchStandardScaler.t (tensor T)) D rows :
  TorchStandardScaler.fit self (Mat D rows)
  = OK {| TorchStandardScaler.mean := Some (Mat D [col_stat vmean D rows]);
          TorchStandardScaler.std := Some (Mat D [col_stat (vstd false) D rows]) |}.
Proof. reflexivity. Qed.

Lemma std_transform_mat D m sd xs :
  length m = D → length sd = D → Forall (λ row, length row = D) xs →
  TorchStandardScaler.transform
    {| TorchStandardScaler.mean := Some (Mat D [m]);
       TorchStandardScaler.std := Some (Mat D [sd]) |} (Mat D xs)
  = OK (Mat D (scale_row m sd <$> xs)).
Proof.
  intros Hm Hs Hxs. unfold TorchStandardScaler.transform. simpl.
  erewrite broadcast_inplace_rows by done. simpl.
  erewrite broadcast_inplace_rows; [| done | | by rewrite length_fmap].
  - simpl. by rewrite <- list_fmap_compose.
  - apply Forall_fmap. eapply Forall_impl; [exact Hxs|]. intros row E; simpl.
    rewrite length_zip_with. simpl in E. lia.
Qed.

Lemma std_reverse_mat D m sd xs :
  length m = D → length sd = D → Forall (λ row, length row = D) xs →
  TorchStandardScaler.reverse
    {| TorchStandardScaler.mean := Some (Mat D [m]);
       TorchStandardScaler.std := Some (Mat D [sd]) |} (Mat D xs)
  = OK (Mat D (unscale_row m sd <$> xs)).
Proof.
  intros Hm Hs Hxs. unfold TorchStandardScaler.reverse. simpl.
  erewrite broadcast_inplace_rows; [| done | done | by rewrite length_fmap].
  simpl.
  erewrite broadcast_inplace_rows; [| done | | done].
  - simpl. by rewrite <- list_fmap_compose.
  - apply Forall_fmap. eapply Forall_impl; [exact Hxs|]. intros row E; simpl.
    rewrite length_zip_with, length_fmap. simpl in E. lia.
Qed.

Lemma std_fit_transform_mat (self : TorchStandardScaler.t (tensor T)) D rows :
  Forall (λ row, length row = D) rows →
  TorchStandardScaler.fit_transform self (Mat D rows)
  = OK ({| TorchStandardScaler.mean := Some (Mat D [col_stat vmean D rows]);
           TorchStandardScaler.std := Some (Mat D [col_stat (vstd false) D rows]) |},
        Mat D (scale_row (col_stat vmean D rows) (col_stat (vstd false) D rows) <$> rows)).
Proof.
  intros Hrows.
  pose proof (std_transform_mat D (col_stat vmean D rows)
                (col_stat (vstd false) D rows) rows
                (length_col_stat _ _ _) (length_col_stat _ _ _) Hrows) as E.
  unfold TorchStandardScaler.transform in E. simpl in E.
  unfold TorchStandardScaler.fit_transform. simpl.
  unfold col_stat in *.
  destruct (broadcast_inplace ssub _ _) as [x1|]; [|done]. simpl in *.
  destruct (broadcast_inplace sdiv _ _) as [x2|]; [|done]. simpl in *.
  by inversion E.
Qed.

(** fit then transform is fit_transform *)
Lemma std_fit_transform_eq (self : TorchStandardScaler.t (tensor T)) x :
  TorchStandardScaler.fit_transform self x
  = (s ← TorchStandardScaler.fit self x;
     z ← TorchStandardScaler.transform s x; OK (s, z)).
Proof.
  unfold TorchStandardScaler.fit_transform, TorchStandardScaler.fit,
    TorchStandardScaler.transform. simpl.
  destruct (broadcast_inplace ssub _ _) as [x1|]; [|done]. simpl.
  by destruct (broadcast_inplace sdiv _ _).
Qed.

(** *** TorchStandardScaler on a vector (the responses [y]) *)

Lemma std_fit_transform_vec (self : TorchStandardScaler.t (tensor T)) v :
  TorchStandardScaler.fit_transform self (Vec v)
  = OK ({| TorchStandardScaler.mean := Some (Vec [vmean v]);
           TorchStandardScaler.std := Some (Vec [vstd false v]) |},
        Vec ((λ x, (x ⊖ vmean v) ⊘ (vstd false v ⊕ tiny)) <$> v)).
Proof.
  unfold TorchStandardScaler.fit_transform. simpl.
  rewrite broadcast_inplace_vec_one. simpl.
  rewrite broadcast_inplace_vec_one. simpl.
  by rewrite <- list_fmap_compose.
Qed.

(** *** TorchNormalizer on a matrix *)

Lemma lookup_norm_row mx mn row j v a b :
  row !! j = Some v → mx !! j = Some a → mn !! j = Some b →
  norm_row mx mn row !! j = Some ((v ⊖ b) ⊘ (a ⊖ b)).
Proof.
  intros Hv Ha Hb. unfold norm_row.
  rewrite !lookup_zip_with, Hv, Ha, Hb. done.
Qed.

Lemma norm_transform_mat D mx mn xs :
  length mx = D → length mn = D → Forall (λ row, length row = D) xs →
  TorchNormalizer.transform
    {| TorchNormalizer.max := Some (Vec mx); TorchNormalizer.min := Some (Vec mn) |}
    (Mat D xs)
  = OK (Mat D (norm_row mx mn <$> xs)).
Proof.
  intros Hx Hn Hxs. unfold TorchNormalizer.transform. simpl.
  erewrite broadcast_rows; [| by rewrite <- Hn | done | done]. simpl.
  rewrite broadcast_vec by congruence. simpl.
  erewrite broadcast_rows;
    [| by simpl; rewrite length_zip_with_l_eq by congruence; rewrite Hx | |
       by rewrite length_zip_with_l_eq by congruence].
  - simpl. by rewrite <- list_fmap_compose.
  - apply Forall_fmap. eapply Forall_impl; [exact Hxs|]. intros row E; simpl.
    rewrite length_zip_with. simpl in E. lia.
Qed.
End ScalerFacts.

(** ** Column statistics over the reals *)

Section RealColumns.
Local Open Scope R_scope.
Implicit Types (l : list R) (c d mu : R).

Lemma foldl_Rplus a l : foldl Rplus a l = a + Rsum l.
Proof.
  revert a. induction l as [|x l IH]; intros a; simpl; [lra|].
  rewrite IH. lra.
Qed.

Lemma vsum_real l : vsum l = Rsum l.
Proof. unfold vsum. simpl. rewrite foldl_Rplus. lra. Qed.

Lemma vmean_real l : vmean l = pop_mean l.
Proof.
  unfold vmean, pop_mean. rewrite vsum_real. simpl.
  by rewrite <- INR_IZR_INZ.
Qed.

Lemma vvar_real l : vvar false l = pop_var l.
Proof.
  unfold vvar, pop_var. rewrite vsum_real, vmean_real. simpl.
  rewrite Z.sub_0_r, Z.max_r by lia. by rewrite <- INR_IZR_INZ.
Qed.

Lemma vstd_real l : vstd false l = pop_std l.
Proof. unfold vstd, pop_std. by rewrite vvar_real. Qed.

Lemma Rsum_scaled l mu d :
  Rsum ((λ x, (x - mu) / d) <$> l) = (Rsum l - INR (length l) * mu) / d.
Proof.
  induction l as [|x l IH]; [simpl; lra|].
  rewrite fmap_cons. cbn [Rsum foldr length]. fold (Rsum l).
  fold (Rsum ((λ x, (x - mu) / d) <$> l)). rewrite IH, S_INR.
  unfold Rdiv. lra.
Qed.

Lemma Rsum_factor l (k : R) (g : R → R) :
  Rsum ((λ x, k * g x) <$> l) = k * Rsum (g <$> l).
Proof.
  induction l as [|x l IH]; [simpl; lra|].
  rewrite !fmap_cons. cbn [Rsum foldr]. fold (Rsum ((λ x, k * g x) <$> l)).
  fold (Rsum (g <$> l)). rewrite IH. lra.
Qed.

Lemma Rsum_squares_nonneg l (g : R → R) : 0 <= Rsum ((λ x, g x * g x) <$> l).
Proof.
  induction l as [|x l IH]; [simpl; lra|].
  rewrite fmap_cons. cbn [Rsum foldr]. fold (Rsum ((λ x, g x * g x) <$> l)).
  pose proof (Rle_0_sqr (g x)) as Hs. unfold Rsqr in Hs. lra.
Qed.

Lemma INR_length_pos l : l ≠ [] → 0 < INR (length l).
Proof. destruct l; [done|]. intros _. apply lt_0_INR. simpl. lia. Qed.

Lemma pop_var_nonneg l : 0 <= pop_var l.
Proof.
  unfold pop_var. destruct l as [|x l].
  - simpl. unfold Rdiv. rewrite Rinv_0. lra.
  - apply Rmult_le_pos.
    + apply (Rsum_squares_nonneg _ (λ y, y - pop_mean (x :: l))).
    + left. apply Rinv_0_lt_compat, INR_length_pos. done.
Qed.

Lemma pop_std_nonneg l : 0 <= pop_std l.
Proof. apply sqrt_pos. Qed.

(** the divisor of [transform] is positive, whatever the data *)
Lemma pop_std_tiny_pos l : 0 < pop_std l + 1e-10.
Proof. pose proof (pop_std_nonneg l). lra. Qed.

(** a column centred on its mean and divided by [d] has mean zero ... *)
Lemma pop_mean_scaled l d :
  l ≠ [] → pop_mean ((λ x, (x - pop_mean l) / d) <$> l) = 0.
Proof.
  intros Hl. unfold pop_mean at 1. rewrite Rsum_scaled, length_fmap.
  pose proof (INR_length_pos l Hl) as Hn.
  replace (Rsum l - INR (length l) * pop_mean l) with 0.
  - unfold Rdiv. lra.
  - unfold pop_mean. field. lra.
Qed.

(** ... and its variance is the variance of the column over [d²] *)
Lemma pop_var_scaled l d :
  l ≠ [] →
  pop_var ((λ x, (x - pop_mean l) / d) <$> l) = pop_var l / (d * d).
Proof.
  intros Hl. unfold pop_var at 1. rewrite pop_mean_scaled by done.
  rewrite length_fmap, <- list_fmap_compose. unfold pop_var.
  erewrite (list_fmap_ext _
    (λ x, (/ (d * d)) * ((x - pop_mean l) * (x - pop_mean l)))).
  - rewrite (Rsum_factor l (/ (d * d)) (λ x, (x - pop_mean l) * (x - pop_mean l))).
    unfold Rdiv. lra.
  - intros _ x _. simpl. unfold Rdiv. rewrite Rinv_mult. lra.
Qed.

Lemma pop_std_scaled l d :
  l ≠ [] → 0 < d →
  pop_std ((λ x, (x - pop_mean l) / d) <$> l) = pop_std l / d.
Proof.
  intros Hl Hd. unfold pop_std. rewrite pop_var_scaled by done.
  rewrite sqrt_div_alt by nra. f_equal.
  replace (d * d) with (Rsqr d) by (unfold Rsqr; lra).
  apply sqrt_Rsqr. lra.
Qed.

(** a constant column *)
Lemma Rsum_const l c : Forall (λ x, x = c) l → Rsum l = INR (length l) * c.
Proof.
  induction 1 as [|x l -> _ IH]; [simpl; lra|].
  cbn [Rsum foldr length]. fold (Rsum l). rewrite IH, S_INR. lra.
Qed.

Lemma pop_mean_const l c : l ≠ [] → Forall (λ x, x = c) l → pop_mean l = c.
Proof.
  intros Hl Hc. unfold pop_mean. rewrite (Rsum_const l c Hc).
  pose proof (INR_length_pos l Hl). field. lra.
Qed.

Lemma pop_var_const l c : l ≠ [] → Forall (λ x, x = c) l → pop_var l = 0.
Proof.
  intros Hl Hc. unfold pop_var. rewrite (pop_mean_const l c Hl Hc).
  rewrite (Rsum_const _ 0).
  - unfold Rdiv. lra.
  - apply Forall_fmap. eapply Forall_impl; [exact Hc|]. intros x ->. simpl. lra.
Qed.

Lemma pop_std_const l c : l ≠ [] → Forall (λ x, x = c) l → pop_std l = 0.
Proof.
  intros Hl Hc. unfold pop_std. rewrite (pop_var_const l c Hl Hc).
  apply sqrt_0.
Qed.

(** how far from one the standardised deviation [s / (s + 1e-10)] is *)
Lemma guarded_ratio_bounds s :
  0 < s → 1 - 1e-10 / s < s / (s + 1e-10) < 1.
Proof.
  intros Hs. split.
  - apply (Rmult_lt_reg_r (s * (s + 1e-10))); [nra|].
    replace ((1 - 1e-10 / s) * (s * (s + 1e-10)))
      with ((s - 1e-10) * (s + 1e-10)) by (field; lra).
    replace (s / (s + 1e-10) * (s * (s + 1e-10))) with (s * s) by (field; lra).
    nra.
  - apply (Rmult_lt_reg_r (s + 1e-10)); [lra|].
    replace (s / (s + 1e-10) * (s + 1e-10)) with s by (field; lra). lra.
Qed.
End RealColumns.

(** ** The standard scaler: what it stores and what it returns *)

Section ColumnsOfScaled.
Context {T : Type} `{Scalar T}.

Lemma col_lookup j (rows : list (list T)) i row v :
  rows !! i = Some row → row !! j = Some v → col j rows !! i = Some v.
Proof.
  intros Hr Hv. unfold col. rewrite list_lookup_fmap, Hr. simpl.
  by rewrite nth_lookup, Hv.
Qed.

Lemma length_col j (rows : list (list T)) : length (col j rows) = length rows.
Proof. unfold col. by rewrite length_fmap. Qed.

Lemma col_nonempty j (rows : list (list T)) : rows ≠ [] → col j rows ≠ [].
Proof. by destruct rows. Qed.

(** column [j] of the transformed matrix is column [j] of the matrix,
    transformed *)
Lemma col_scale_rows D j (m sd : list T) (rows : list (list T)) mj sj :
  j < D → Forall (λ row, length row = D) rows →
  m !! j = Some mj → sd !! j = Some sj →
  col j (scale_row m sd <$> rows)
  = (λ v, (v ⊖ mj) ⊘ (sj ⊕ tiny)) <$> col j rows.
Proof.
  intros Hj Hrows Hm Hs. unfold col. rewrite <- !list_fmap_compose.
  apply Forall_fmap_ext_1. eapply Forall_impl; [exact Hrows|].
  intros row E; simpl in *.
  destruct (lookup_lt_is_Some_2 row j) as [v Hv]; [lia|].
  by rewrite !nth_lookup, (lookup_scale_row m sd row j v mj sj), Hv.
Qed.
End ColumnsOfScaled.

Section StandardScalerReal.
Local Open Scope R_scope.
Implicit Types (rows xs : list (list R)).

Lemma col_stat_mean_real D rows j :
  (j < D)%nat → col_stat vmean D rows !! j = Some (pop_mean (col j rows)).
Proof. intros. by rewrite lookup_col_stat, vmean_real. Qed.

Lemma col_stat_std_real D rows j :
  (j < D)%nat → col_stat (vstd false) D rows !! j = Some (pop_std (col j rows)).
Proof. intros. by rewrite lookup_col_stat, vstd_real. Qed.


End StandardScalerReal.


(** Population, not Bessel-corrected: the deviation of the column [1, 3] is
    1, where dividing by [n - 1] would give the square root of 2. *)
Example population_std_float :
  TorchStandardScaler.fit TorchStandardScaler.new (Mat 2 sample_float)
  = OK {| TorchStandardScaler.mean := Some (Mat 2 [[5; 2]]%float);
          TorchStandardScaler.std := Some (Mat 2 [[0; 1]]%float) |}.
Proof. vm_compute. reflexivity. Qed.

(** On binary64 the constant column goes through [transform] without a
    division by zero, and comes out as zeros. *)
Example constant_column_transform_float :
  TorchStandardScaler.fit_transform TorchStandardScaler.new constant_column
  = OK ({| TorchStandardScaler.mean := Some (Mat 1 [[5]]%float);
           TorchStandardScaler.std := Some (Mat 1 [[0]]%float) |},
        Mat 1 [[0]; [0]]%float).
Proof. vm_compute. reflexivity. Qed.

(** ** Round trip and moments of the standardised data *)

(** C5, as stated, fails on a constant column: the scaler sends it to zeros,
    whose variance is 0 and not 1, with no tolerance that could account for
    it. *)
Lemma constant_column_not_unit_variance :
  ∃ s rows,
    TorchStandardScaler.fit_transform TorchStandardScaler.new constant_column
    = OK (s, Mat 1 rows)
    ∧ vvar false (col 0 rows) = 0%float
    ∧ within 0.5 (vvar false (col 0 rows)) 1 = false.
Proof.
  exists {| TorchStandardScaler.mean := Some (Mat 1 [[5]]%float);
            TorchStandardScaler.std := Some (Mat 1 [[0]]%float) |},
    [[0]; [0]]%float.
  split; [apply constant_column_transform_float|].
  split; vm_compute; reflexivity.
Qed.

Section RoundTrip.
Local Open Scope R_scope.
Implicit Types (m sd row : list R) (rows xs : list (list R)).

Lemma unscale_scale_row D m sd row :
  length row = D → length m = D → length sd = D →
  Forall (λ s, 0 <= s) sd →
  unscale_row m sd (scale_row m sd row) = row.
Proof.
  intros Hrow Hm Hsd Hpos. apply list_eq. intros j.
  destruct (row !! j) as [v|] eqn:Hv.
  - pose proof (lookup_lt_Some _ _ _ Hv) as Hj.
    destruct (lookup_lt_is_Some_2 m j) as [mj Hmj]; [lia|].
    destruct (lookup_lt_is_Some_2 sd j) as [sj Hsj]; [lia|].
    rewrite (lookup_unscale_row m sd _ j _ mj sj
               (lookup_scale_row m sd row j v mj sj Hv Hmj Hsj) Hmj Hsj).
    f_equal. simpl.
    pose proof (Forall_lookup_1 _ _ _ _ Hpos Hsj) as Hs. simpl in Hs.
    field. lra.
  - apply lookup_ge_None. apply lookup_ge_None in Hv.
    rewrite (length_unscale_row m sd _ D); [lia | | done | done].
    by apply length_scale_row.
Qed.

Lemma col_stat_std_nonneg D rows :
  Forall (λ s, 0 <= s) (col_stat (vstd false) D rows).
Proof.
  apply Forall_lookup. intros j s Hs.
  assert (j < D)%nat as Hj.
  { apply lookup_lt_Some in Hs. by rewrite length_col_stat in Hs. }
  rewrite col_stat_std_real in Hs by done. inversion Hs. apply pop_std_nonneg.
Qed.

(** C5, amended.  For a scaler fitted on a matrix, [reverse] undoes
    [transform] on every matrix of the same width; the transformed fitting
    data has mean 0 in every column, and the deviation of a column whose
    deviation was [s] becomes [s / (s + 1e-10)]: 0 for a constant column,
    between [1 - 1e-10 / s] and 1 otherwise. *)
Theorem standard_scaler_roundtrip_moments D rows xs :
  Forall (λ row, length row = D) rows →
  Forall (λ row, length row = D) xs →
  ∃ s zs zx,
    TorchStandardScaler.fit_transform TorchStandardScaler.new (Mat D rows)
    = OK (s, Mat D zs)
    ∧ TorchStandardScaler.transform s (Mat D xs) = OK (Mat D zx)
    ∧ TorchStandardScaler.reverse s (Mat D zx) = OK (Mat D xs)
    ∧ (rows ≠ [] → ∀ j, (j < D)%nat →
         pop_mean (col j zs) = 0
         ∧ pop_std (col j zs)
           = pop_std (col j rows) / (pop_std (col j rows) + 1e-10)
         ∧ pop_var (col j zs)
           = Rsqr (pop_std (col j rows) / (pop_std (col j rows) + 1e-10))
         ∧ (pop_std (col j rows) = 0 → pop_var (col j zs) = 0)
         ∧ (0 < pop_std (col j rows) →
            1 - 1e-10 / pop_std (col j rows) < pop_std (col j zs) < 1)).
Proof.
  intros Hrows Hxs.
  set (m := col_stat vmean D rows). set (sd := col_stat (vstd false) D rows).
  assert (length m = D) as Hm by apply length_col_stat.
  assert (length sd = D) as Hsd by apply length_col_stat.
  exists {| TorchStandardScaler.mean := Some (Mat D [m]);
            TorchStandardScaler.std := Some (Mat D [sd]) |},
    (scale_row m sd <$> rows), (scale_row m sd <$> xs).
  split; [by apply std_fit_transform_mat|].
  split; [by apply std_transform_mat|].
  split.
  { rewrite std_reverse_mat; [| done | done |].
    - f_equal. f_equal. rewrite <- list_fmap_compose.
      rewrite <- (list_fmap_id xs) at 2. apply Forall_fmap_ext_1.
      eapply Forall_impl; [exact Hxs|]. intros row E. simpl in *.
      apply (unscale_scale_row D); [done..|]. apply col_stat_std_nonneg.
    - apply Forall_fmap. eapply Forall_impl; [exact Hxs|]. intros row E.
      simpl in *. by apply length_scale_row. }
  intros Hne j Hj.
  pose proof (col_nonempty j rows Hne) as Hcol.
  pose proof (pop_std_tiny_pos (col j rows)) as Hd.
  pose proof (pop_std_nonneg (col j rows)) as Hs.
  rewrite (col_scale_rows D j m sd rows (pop_mean (col j rows)) (pop_std (col j rows)))
    by (done || by apply col_stat_mean_real || by apply col_stat_std_real).
  simpl.
  assert (pop_var ((λ v, (v - pop_mean (col j rows)) / (pop_std (col j rows) + 1e-10))
                     <$> col j rows)
          = Rsqr (pop_std (col j rows) / (pop_std (col j rows) + 1e-10))) as Hvar.
  { rewrite pop_var_scaled by done. rewrite Rsqr_div'. unfold Rsqr at 2.
    f_equal. unfold pop_std. rewrite Rsqr_sqrt; [done|apply pop_var_nonneg]. }
  split; [by apply pop_mean_scaled|].
  split; [by apply pop_std_scaled|].
  split; [exact Hvar|].
  split.
  - intros E. rewrite Hvar, E. unfold Rsqr, Rdiv. lra.
  - intros Hpos. rewrite pop_std_scaled by done. by apply guarded_ratio_bounds.
Qed.

Lemma standard_scaler_roundtrip_moments_witness :
  Forall (λ row, length row = 2%nat) sample_real
  ∧ ∃ s zs zx,
      TorchStandardScaler.fit_transform TorchStandardScaler.new (Mat 2 sample_real)
      = OK (s, Mat 2 zs)
      ∧ TorchStandardScaler.transform s (Mat 2 sample_real) = OK (Mat 2 zx)
      ∧ TorchStandardScaler.reverse s (Mat 2 zx) = OK (Mat 2 sample_real)
      ∧ pop_mean (col 1 zs) = 0.
Proof.
  assert (Forall (λ row : list R, length row = 2%nat) sample_real) as Hwf
    by (repeat constructor).
  split; [exact Hwf|].
  destruct (standard_scaler_roundtrip_moments 2 sample_real sample_real Hwf Hwf)
    as (s & zs & zx & Hft & Htr & Hrev & Hmom).
  exists s, zs, zx. split; [exact Hft|]. split; [exact Htr|]. split; [exact Hrev|].
  destruct (Hmom ltac:(done) 1%nat ltac:(lia)) as [Hmean _]. exact Hmean.
Defined.
End RoundTrip.

(** On binary64 the round trip is exact up to rounding: 0.1 comes back as
    0.10000000000000009. *)
Example roundtrip_float :
  (s ← TorchStandardScaler.fit TorchStandardScaler.new (Mat 2 sample_float);
   z ← TorchStandardScaler.transform s (Mat 2 [[4; 2.5]; [7; 0.1]]%float);
   TorchStandardScaler.reverse s z)
  = OK (Mat 2 [[4; 2.5]; [7; 0.10000000000000009]]%float)
  ∧ within 1e-15 0.10000000000000009 0.1 = true.
Proof. split; vm_compute; reflexivity. Qed.

(** ** The min-max normalizer *)

(** C8.  [TorchNormalizer] divides by [max - min] with no guard: on a
    constant column it computes 0 / 0, a NaN in every entry, where
    [TorchStandardScaler], which adds 1e-10 to its divisor, returns zeros. *)
Theorem normalizer_constant_column :
  TorchNormalizer.fit_transform TorchNormalizer.new constant_column
  = OK ({| TorchNormalizer.max := Some (Vec [5]%float);
           TorchNormalizer.min := Some (Vec [5]%float) |},
        Mat 1 [[nan]; [nan]]%float)
  ∧ PrimFloat.is_nan (PrimFloat.div (5 - 5) (5 - 5)) = true
  ∧ TorchStandardScaler.fit_transform TorchStandardScaler.new constant_column
    = OK ({| TorchStandardScaler.mean := Some (Mat 1 [[5]]%float);
             TorchStandardScaler.std := Some (Mat 1 [[0]]%float) |},
          Mat 1 [[0]; [0]]%float).
Proof. split_and!; vm_compute; reflexivity. Qed.

(** away from constant columns the normalizer is [(x - min) / (max - min)] *)
Example normalizer_float :
  TorchNormalizer.fit_transform TorchNormalizer.new (Mat 2 [[1; 10]; [3; 30]; [2; 20]]%float)
  = OK ({| TorchNormalizer.max := Some (Vec [3; 30]%float);
           TorchNormalizer.min := Some (Vec [1; 10]%float) |},
        Mat 2 [[0; 0]; [1; 1]; [0.5; 0.5]]%float).
Proof. vm_compute. reflexivity. Qed.

(** ** Running the tensor operations on a store *)

Section StoreFacts.
Context {T : Type} `{Scalar T}.
Implicit Types (h : heap T) (x y l : loc) (a b r : tensor T).

Lemma fresh_loc_unused h : h !! fresh (dom h) = None.
Proof. apply not_elem_of_dom, is_fresh. Qed.

Lemma fresh_loc_ne h x a : h !! x = Some a → fresh (dom h) ≠ x.
Proof. intros Hx E. rewrite <- E, fresh_loc_unused in Hx. done. Qed.

(** what each kind of operation does to the store *)
Lemma run_fresh1 (f : tensor T → result (tensor T)) x a h :
  h !! x = Some a →
  fresh1 f x h
  = match f a with
    | OK r => (OK (fresh (dom h)), <[fresh (dom h) := r]> h)
    | Raise e => (Raise e, h)
    end.
Proof.
  intros Hx. unfold fresh1, load, lift, alloc, mbind, heapM_bind. rewrite Hx.
  simpl. by destruct (f a).
Qed.

Lemma run_fresh2 (f : tensor T → tensor T → result (tensor T)) x y a b h :
  h !! x = Some a → h !! y = Some b →
  fresh2 f x y h
  = match f a b with
    | OK r => (OK (fresh (dom h)), <[fresh (dom h) := r]> h)
    | Raise e => (Raise e, h)
    end.
Proof.
  intros Hx Hy. unfold fresh2, load, lift, alloc, mbind, heapM_bind.
  rewrite Hx. simpl. rewrite Hy. simpl. by destruct (f a b).
Qed.

Lemma run_inplace2 (f : tensor T → tensor T → result (tensor T)) x y a b h :
  h !! x = Some a → h !! y = Some b →
  inplace2 f x y h
  = match f a b with
    | OK r => (OK x, <[x := r]> h)
    | Raise e => (Raise e, h)
    end.
Proof.
  intros Hx Hy. unfold inplace2, load, lift, store, mbind, heapM_bind.
  rewrite Hx. simpl. rewrite Hy. simpl. by destruct (f a b).
Qed.

(** a run, read backwards: the first part raised, or it returned and the
    rest ran from the store it left *)
Lemma bind_inv {A B} (m : heapM T A) (k : A → heapM T B) h (r : result B) h' :
  (m ≫= k) h = (r, h') →
  (∃ e, m h = (Raise e, h') ∧ r = Raise e)
  ∨ (∃ u h1, m h = (OK u, h1) ∧ k u h1 = (r, h')).
Proof.
  unfold mbind, heapM_bind. destruct (m h) as [[u|e] h1]; [eauto|].
  intros [= <- <-]. eauto.
Qed.

Lemma fresh1_OK (f : tensor T → result (tensor T)) x h l h' :
  fresh1 f x h = (OK l, h') →
  ∃ a r, h !! x = Some a ∧ f a = OK r
    ∧ l = fresh (dom h) ∧ h' = <[l := r]> h.
Proof.
  unfold fresh1, load, lift, alloc, mbind, heapM_bind.
  destruct (h !! x) as [a|] eqn:Hx; simpl; [|done].
  destruct (f a) as [r|] eqn:Hf; [|done].
  intros [= <- <-]. eauto 6.
Qed.

Lemma fresh2_OK (f : tensor T → tensor T → result (tensor T)) x y h l h' :
  fresh2 f x y h = (OK l, h') →
  ∃ a b r, h !! x = Some a ∧ h !! y = Some b ∧ f a b = OK r
    ∧ l = fresh (dom h) ∧ h' = <[l := r]> h.
Proof.
  unfold fresh2, load, lift, alloc, mbind, heapM_bind.
  destruct (h !! x) as [a|] eqn:Hx; simpl; [|done].
  destruct (h !! y) as [b|] eqn:Hy; simpl; [|done].
  destruct (f a b) as [r|] eqn:Hf; [|done].
  intros [= <- <-]. eauto 8.
Qed.

Lemma inplace2_OK (f : tensor T → tensor T → result (tensor T)) x y h l h' :
  inplace2 f x y h = (OK l, h') →
  ∃ a b r, h !! x = Some a ∧ h !! y = Some b ∧ f a b = OK r
    ∧ l = x ∧ h' = <[x := r]> h.
Proof.
  unfold inplace2, load, lift, store, mbind, heapM_bind.
  destruct (h !! x) as [a|] eqn:Hx; simpl; [|done].
  destruct (h !! y) as [b|] eqn:Hy; simpl; [|done].
  destruct (f a b) as [r|] eqn:Hf; [|done].
  intros [= <- <-]. eauto 8.
Qed.

Lemma attr_OK (o : option loc) h l h' :
  attr (M:=heapM T) o h = (OK l, h') → o = Some l ∧ h' = h.
Proof. destruct o; [|done]. by intros [= <- <-]. Qed.

(** an operation that raises has written nothing *)
Lemma fresh1_Raise (f : tensor T → result (tensor T)) x h e h' :
  fresh1 f x h = (Raise e, h') → h' = h.
Proof.
  unfold fresh1, load, lift, alloc, mbind, heapM_bind.
  destruct (h !! x) as [a|]; simpl; [|by intros [= _ <-]].
  destruct (f a); [done|]. by intros [= _ <-].
Qed.

Lemma fresh2_Raise (f : tensor T → tensor T → result (tensor T)) x y h e h' :
  fresh2 f x y h = (Raise e, h') → h' = h.
Proof.
  unfold fresh2, load, lift, alloc, mbind, heapM_bind.
  destruct (h !! x) as [a|]; simpl; [|by intros [= _ <-]].
  destruct (h !! y) as [b|]; simpl; [|by intros [= _ <-]].
  destruct (f a b); [done|]. by intros [= _ <-].
Qed.

Lemma inplace2_Raise (f : tensor T → tensor T → result (tensor T)) x y h e h' :
  inplace2 f x y h = (Raise e, h') → h' = h.
Proof.
  unfold inplace2, load, lift, store, mbind, heapM_bind.
  destruct (h !! x) as [a|]; simpl; [|by intros [= _ <-]].
  destruct (h !! y) as [b|]; simpl; [|by intros [= _ <-]].
  destruct (f a b); [done|]. by intros [= _ <-].
Qed.

Lemma attr_Raise (o : option loc) h e h' :
  attr (M:=heapM T) o h = (Raise e, h') → h' = h.
Proof. destruct o; [done|]. by intros [= _ <-]. Qed.

(** *** The frame

    [h0] is the store before a call and [h] the store at some point of it:
    every tensor of [h0] is still in [h], unchanged. *)

(** a new tensor: the frame is kept and the new location is outside it *)
Lemma fresh1_frame (f : tensor T → result (tensor T)) x h0 h l h' :
  h0 ⊆ h → fresh1 f x h = (OK l, h') →
  h0 ⊆ h' ∧ h0 !! l = None ∧ is_Some (h' !! l).
Proof.
  intros Hsub (a & r & _ & _ & -> & ->)%fresh1_OK.
  assert (h0 !! fresh (dom h) = None) as Hnew.
  { eapply lookup_weaken_None; [apply fresh_loc_unused | done]. }
  split_and!; [by apply insert_subseteq_r | done |].
  rewrite lookup_insert_eq. eauto.
Qed.

Lemma fresh2_frame (f : tensor T → tensor T → result (tensor T)) x y h0 h l h' :
  h0 ⊆ h → fresh2 f x y h = (OK l, h') →
  h0 ⊆ h' ∧ h0 !! l = None ∧ is_Some (h' !! l).
Proof.
  intros Hsub (a & b & r & _ & _ & _ & -> & ->)%fresh2_OK.
  assert (h0 !! fresh (dom h) = None) as Hnew.
  { eapply lookup_weaken_None; [apply fresh_loc_unused | done]. }
  split_and!; [by apply insert_subseteq_r | done |].
  rewrite lookup_insert_eq. eauto.
Qed.

(** an overwrite of a location outside the frame keeps the frame *)
Lemma inplace2_frame (f : tensor T → tensor T → result (tensor T)) x y h0 h l h' :
  h0 ⊆ h → h0 !! x = None → inplace2 f x y h = (OK l, h') →
  l = x ∧ h0 ⊆ h' ∧ is_Some (h' !! l).
Proof.
  intros Hsub Hx (a & b & r & _ & _ & _ & -> & ->)%inplace2_OK.
  split_and!; [done | by apply insert_subseteq_r |].
  rewrite lookup_insert_eq. eauto.
Qed.
End StoreFacts.

Section Frame.
Context {T : Type} `{Scalar T}.
Implicit Types (h : heap T) (x y l : loc).

(** the same three facts with the domain: a run only adds locations *)
Lemma fresh1_grow (f : tensor T → result (tensor T)) x h0 h l h' :
  h0 ⊆ h → fresh1 f x h = (OK l, h') →
  h0 ⊆ h' ∧ h0 !! l = None ∧ l ∈ dom h' ∧ dom h ⊆ dom h'.
Proof.
  intros Hsub Hrun.
  destruct (fresh1_frame f x h0 h l h' Hsub Hrun) as (Hs & Hn & Hl).
  apply fresh1_OK in Hrun as (a & r & _ & _ & _ & E).
  split_and!; [done | done | by apply elem_of_dom |].
  rewrite E, dom_insert_L. set_solver.
Qed.

Lemma fresh2_grow (f : tensor T → tensor T → result (tensor T)) x y h0 h l h' :
  h0 ⊆ h → fresh2 f x y h = (OK l, h') →
  h0 ⊆ h' ∧ h0 !! l = None ∧ l ∈ dom h' ∧ dom h ⊆ dom h'.
Proof.
  intros Hsub Hrun.
  destruct (fresh2_frame f x y h0 h l h' Hsub Hrun) as (Hs & Hn & Hl).
  apply fresh2_OK in Hrun as (a & b & r & _ & _ & _ & _ & E).
  split_and!; [done | done | by apply elem_of_dom |].
  rewrite E, dom_insert_L. set_solver.
Qed.

Lemma inplace2_grow (f : tensor T → tensor T → result (tensor T)) x y h0 h l h' :
  h0 ⊆ h → h0 !! x = None → inplace2 f x y h = (OK l, h') →
  l = x ∧ h0 ⊆ h' ∧ dom h ⊆ dom h'.
Proof.
  intros Hsub Hx Hrun.
  destruct (inplace2_frame f x y h0 h l h' Hsub Hx Hrun) as (? & ? & _).
  apply inplace2_OK in Hrun as (a & b & r & _ & _ & _ & _ & E).
  split_and!; [done..|]. rewrite E, dom_insert_L. set_solver.
Qed.

Ltac frame_op :=
  match goal with
  | Hop : attr _ _ = (OK _, _) |- _ =>
      apply attr_OK in Hop as [? ?]; simplify_eq
  | Hop : attr _ _ = (Raise _, _) |- _ => apply attr_Raise in Hop; subst
  | Hop : fresh1 _ _ _ = (Raise _, _) |- _ => apply fresh1_Raise in Hop; subst
  | Hop : fresh2 _ _ _ _ = (Raise _, _) |- _ => apply fresh2_Raise in Hop; subst
  | Hop : inplace2 _ _ _ _ = (Raise _, _) |- _ =>
      apply inplace2_Raise in Hop; subst
  | Hsub : ?h0 ⊆ ?h, Hop : fresh1 _ _ ?h = (OK _, _) |- _ =>
      apply (fresh1_grow _ _ h0 _ _ _ Hsub) in Hop as (? & ? & ? & ?);
      clear Hsub
  | Hsub : ?h0 ⊆ ?h, Hop : fresh2 _ _ _ ?h = (OK _, _) |- _ =>
      apply (fresh2_grow _ _ _ h0 _ _ _ Hsub) in Hop as (? & ? & ? & ?);
      clear Hsub
  | Hsub : ?h0 ⊆ ?h, Hx : ?h0 !! ?x = None,
    Hop : inplace2 _ ?x _ ?h = (OK _, _) |- _ =>
      apply (inplace2_grow _ _ _ h0 _ _ _ Hsub Hx) in Hop as (-> & ? & ?);
      clear Hsub
  end.

Ltac frame_step :=
  match goal with
  | Hrun : mret _ _ = _ |- _ =>
      unfold mret, heapM_ret in Hrun; simplify_eq
  | Hrun : (_ ≫= _) _ = _ |- _ =>
      apply bind_inv in Hrun as [(? & Hrun & ?) | (? & ? & ? & Hrun)];
      [simplify_eq|]
  | Hrun : (let '(_, _) := ?u in _) _ = _ |- _ => destruct u
  | |- _ => frame_op
  | Hop : _ = (_, _) |- _ => progress simpl in Hop; frame_op
  end.

(** C9.  Whatever method of either class is called, on whatever store, and
    whether the call returns or raises: every tensor that was in the store
    before the call, the caller's array among them, is in the store
    afterwards with the same contents; and when the call returns, the
    tensors it stored in [self] or returned are new objects. *)
Theorem scaler_calls_frame (c : method) (std : TorchStandardScaler.t loc)
    (norm : TorchNormalizer.t loc) x h r h' :
  invoke c std norm x h = (r, h') →
  h ⊆ h'
  ∧ ∀ out, r = OK out →
      Forall (λ l, h !! l = None ∧ l ∈ dom h') (new_tensors out).
Proof.
  intros Hrun. assert (h ⊆ h) as Hsub by done.
  destruct c; unfold invoke in Hrun;
    unfold TorchStandardScaler.fit, TorchStandardScaler.transform,
      TorchStandardScaler.fit_transform, TorchStandardScaler.reverse,
      TorchNormalizer.fit, TorchNormalizer.transform,
      TorchNormalizer.fit_transform in Hrun;
    repeat frame_step;
    (split; [done|]);
    intros out Hout; simplify_eq;
    unfold new_tensors, std_stats, norm_stats; simpl;
    repeat (apply Forall_cons; split; [split; [done | set_solver]|]);
    apply Forall_nil_2.
Qed.
End Frame.

Lemma scaler_calls_frame_witness :
  ∃ out h',
    invoke StdFitTransform TorchStandardScaler.new TorchNormalizer.new
      1%positive caller_heap = (OK out, h')
    ∧ caller_heap ⊆ h'
    ∧ Forall (λ l, caller_heap !! l = None ∧ l ∈ dom h') (new_tensors out).
Proof.
  destruct (invoke StdFitTransform TorchStandardScaler.new TorchNormalizer.new
              1%positive caller_heap) as [[out|e] h'] eqn:E.
  - exists out, h'. split; [done|].
    destruct (scaler_calls_frame StdFitTransform TorchStandardScaler.new
                TorchNormalizer.new 1%positive caller_heap (OK out) h' E)
      as [Hsub Hnew].
    split; [exact Hsub | by apply Hnew].
  - vm_compute in E. discriminate E.
Defined.

(** the caller's array after the call, on binary64 *)
Example caller_array_after_fit_transform :
  (λ '(out, h'), (out, h' !! 1%positive))
    (invoke StdFitTransform TorchStandardScaler.new TorchNormalizer.new
       1%positive caller_heap)
  = (OK {| stored := [3; 4]%positive; returned := Some 2%positive |},
     Some (Mat 1 [[5]; [5]]%float)).
Proof. vm_compute. reflexivity. Qed.

(** [transform] before any [fit] raises once it reads [self.mean]; the copy
    it made first stays in the store, next to the caller's array *)
Example transform_before_fit :
  (λ '(out, h'), (out, h' !! 1%positive, h' !! 2%positive))
    (invoke StdTransform TorchStandardScaler.new TorchNormalizer.new
       1%positive caller_heap)
  = (Raise NotFitted, Some constant_column, Some constant_column).
Proof. vm_compute. reflexivity. Qed.

(** ** The methods on a store compute what they compute on values *)

Ltac store_lookup :=
  lazymatch goal with
  | |- <[?k := _]> _ !! ?k = Some _ => apply lookup_insert_eq
  | |- <[_ := _]> _ !! _ = Some _ =>
      rewrite lookup_insert_ne; [store_lookup | store_ne]
  | |- _ => eassumption
  end
with store_ne :=
  first [ eapply fresh_loc_ne; store_lookup
        | apply not_eq_sym; eapply fresh_loc_ne; store_lookup ].

Section Refinement.
Context {T : Type} `{Scalar T}.
Implicit Types (h : heap T) (x : loc) (a : tensor T).

Lemma bind_run {A B} (m : heapM T A) (k : A → heapM T B) h :
  (m ≫= k) h
  = match m h with
    | (OK u, h1) => k u h1
    | (Raise e, h1) => (Raise e, h1)
    end.
Proof. reflexivity. Qed.

Lemma ret_run {A} (u : A) h : mret (M:=heapM T) u h = (OK u, h).
Proof. reflexivity. Qed.

Ltac store_run :=
  repeat first
    [ rewrite bind_run
    | rewrite ret_run
    | erewrite run_fresh1 by store_lookup
    | erewrite run_fresh2 by store_lookup
    | erewrite run_inplace2 by store_lookup ];
  cbn beta iota.

Ltac agree_step :=
  first
    [ progress store_run
    | progress cbn [mbind result_bind mret result_ret]
    | progress cbn [throw clone mean_dim0 std_dim0 max_dim0 min_dim0 isub idiv
                    imul iadd tsub tdiv tadd add_scalar rmul_scalar torch_heap
                    torch_value attr TorchStandardScaler.mean
                    TorchStandardScaler.std TorchNormalizer.max
                    TorchNormalizer.min mean stddev]
    | progress unfold fail
    | match goal with
      | |- context [match ?r with OK _ => _ | Raise _ => _ end] =>
          lazymatch r with
          | OK _ => fail
          | Raise _ => fail
          | match _ with _ => _ end => fail
          | _ => destruct r
          end
      end ].

Ltac agree_run :=
  unfold agree, tensor_at, std_at, norm_at, attr_at;
  repeat agree_step;
  repeat split;
  cbn [TorchStandardScaler.mean TorchStandardScaler.std
       TorchNormalizer.max TorchNormalizer.min fst snd];
  try done; try store_lookup.

Lemma std_fit_agrees s sv x a h :
  h !! x = Some a → std_at h s sv →
  agree std_at (TorchStandardScaler.fit s x h) (TorchStandardScaler.fit sv a).
Proof.
  intros Hx [Hmean Hstd]. unfold TorchStandardScaler.fit. agree_run.
Qed.

Lemma std_transform_agrees s sv x a h :
  h !! x = Some a → std_at h s sv →
  agree tensor_at (TorchStandardScaler.transform s x h)
                  (TorchStandardScaler.transform sv a).
Proof.
  intros Hx [Hmean Hstd].
  destruct s as [[lm|] [ls|]], sv as [[m|] [sd|]]; simpl in Hmean, Hstd;
    try done; unfold TorchStandardScaler.transform; agree_run.
Qed.

Lemma std_fit_transform_agrees s sv x a h :
  h !! x = Some a → std_at h s sv →
  agree (λ h' out outv, std_at h' out.1 outv.1 ∧ tensor_at h' out.2 outv.2)
        (TorchStandardScaler.fit_transform s x h)
        (TorchStandardScaler.fit_transform sv a).
Proof.
  intros Hx [Hmean Hstd]. unfold TorchStandardScaler.fit_transform. agree_run.
Qed.

Lemma std_reverse_agrees s sv x a h :
  h !! x = Some a → std_at h s sv →
  agree tensor_at (TorchStandardScaler.reverse s x h)
                  (TorchStandardScaler.reverse sv a).
Proof.
  intros Hx [Hmean Hstd].
  destruct s as [[lm|] [ls|]], sv as [[m|] [sd|]]; simpl in Hmean, Hstd;
    try done; unfold TorchStandardScaler.reverse; agree_run.
Qed.

Lemma norm_fit_agrees s sv x a h :
  h !! x = Some a → norm_at h s sv →
  agree norm_at (TorchNormalizer.fit s x h) (TorchNormalizer.fit sv a).
Proof.
  intros Hx [Hmax Hmin]. unfold TorchNormalizer.fit. agree_run.
Qed.

Lemma norm_transform_agrees s sv x a h :
  h !! x = Some a → norm_at h s sv →
  agree tensor_at (TorchNormalizer.transform s x h)
                  (TorchNormalizer.transform sv a).
Proof.
  intros Hx [Hmax Hmin].
  destruct s as [[lx|] [ln|]], sv as [[mx|] [mn|]]; simpl in Hmax, Hmin;
    try done; unfold TorchNormalizer.transform; agree_run.
Qed.

Lemma norm_fit_transform_agrees s sv x a h :
  h !! x = Some a → norm_at h s sv →
  agree (λ h' out outv, norm_at h' out.1 outv.1 ∧ tensor_at h' out.2 outv.2)
        (TorchNormalizer.fit_transform s x h)
        (TorchNormalizer.fit_transform sv a).
Proof.
  intros Hx [Hmax Hmin]. unfold TorchNormalizer.fit_transform. agree_run.
Qed.

Lemma UCB_agrees (pm ps : loc) (m s : tensor T) (epsilon : T) h :
  h !! pm = Some m → h !! ps = Some s →
  agree tensor_at (UCB {| mean := pm; stddev := ps |} epsilon h)
                  (UCB {| mean := m; stddev := s |} epsilon).
Proof. intros Hm Hs. unfold UCB. agree_run. Qed.
End Refinement.

(** ** The acquisition function *)

Section AcquisitionFacts.
Context {T : Type} `{Scalar T}.
Implicit Types (m s : list T) (h : heap T).

(** [UCB] on a posterior of two vectors *)
Lemma UCB_vec m s (epsilon : T) :
  length m = length s →
  UCB (M:=result) {| mean := Vec m; stddev := Vec s |} epsilon
  = OK (Vec (zip_with (λ a b, a ⊕ epsilon ⊗ b) m s)).
Proof.
  intros E. unfold UCB. simpl. rewrite broadcast_vec by by rewrite length_fmap.
  by rewrite zip_with_fmap_r.
Qed.

End AcquisitionFacts.



(** on binary64, with the default coefficient and with none *)
Example UCB_float :
  UCB (M:=result) {| mean := Vec [1; 2; 3]%float; stddev := Vec [0.5; 0.5; 1]%float |}
    default_epsilon = OK (Vec [2; 3; 5]%float)
  ∧ UCB (M:=result) {| mean := Vec [1; 2; 3]%float; stddev := Vec [0.5; 0.5; 1]%float |}
      0%float = OK (Vec [1; 2; 3]%float).
Proof. split; vm_compute; reflexivity. Qed.

(** On binary64 the same holds of every mean that is not the negative zero
    (which comes back as the positive zero), as long as the deviations are
    finite: [0 * s] is a zero and adding a zero changes nothing. *)
Lemma float_zero_coefficient (m s : float) :
  finite_float s → not_negative_zero m →
  PrimFloat.add m (PrimFloat.mul 0 s) = m.
Proof.
  unfold finite_float, not_negative_zero. intros Hs Hm.
  apply FloatAxioms.Prim2SF_inj.
  rewrite FloatAxioms.add_spec, FloatAxioms.mul_spec.
  change (Prim2SF 0) with (SpecFloat.S754_zero false).
  unfold SF64add, SF64mul.
  destruct (Prim2SF s) as [sg|sg| |sg ms es]; try done;
    destruct (Prim2SF m) as [sm|sm| |sm mm em]; try done;
    simpl; destruct sm, sg; try done.
Qed.

Lemma UCB_zero_float (m s : list float) :
  length m = length s →
  Forall finite_float s → Forall not_negative_zero m →
  UCB (M:=result) {| mean := Vec m; stddev := Vec s |} 0%float = OK (Vec m).
Proof.
  intros E Hs Hm. rewrite UCB_vec by done. f_equal. f_equal.
  apply list_eq. intros i. rewrite lookup_zip_with.
  destruct (m !! i) as [a|] eqn:Ha; [|done]. simpl.
  destruct (lookup_lt_is_Some_2 s i) as [b Hb].
  { rewrite <- E. by eapply lookup_lt_Some. }
  rewrite Hb. simpl. f_equal.
  apply float_zero_coefficient.
  - by eapply (Forall_lookup_1 _ _ _ _ Hs).
  - by eapply (Forall_lookup_1 _ _ _ _ Hm).
Qed.

(** ** Selection: indexing, masking and argmax *)

Section SelectionFacts.
Context {T : Type} `{Scalar T}.
Implicit Types (v m s : list T) (idx : list nat) (rows : list (list T)).

Lemma mapM_lookup_lt {A} (l : list A) idx :
  Forall (λ i, i < length l) idx →
  ∃ sel, mapM (λ i, l !! i) idx = Some sel
    ∧ length sel = length idx ∧ Forall (λ x, x ∈ l) sel.
Proof.
  intros Hidx.
  destruct (mapM (λ i, l !! i) idx) as [sel|] eqn:E.
  - exists sel. split; [done|]. apply mapM_Some in E. split.
    + symmetry. by eapply Forall2_length.
    + clear Hidx. induction E as [|i x idx sel Hx _ IH]; constructor; [|done].
      by eapply list_elem_of_lookup_2.
  - exfalso. apply eq_None_not_Some in E. apply E, mapM_is_Some.
    eapply Forall_impl; [exact Hidx|]. intros i Hi. simpl.
    by apply lookup_lt_is_Some_2.
Qed.

Lemma index_select_mat D rows idx :
  Forall (λ row, length row = D) rows →
  Forall (λ i, i < length rows) idx →
  ∃ sel, index_select (Mat D rows) idx = OK (Mat D sel)
    ∧ length sel = length idx ∧ Forall (λ row, length row = D) sel.
Proof.
  intros Hwf Hidx. destruct (mapM_lookup_lt rows idx Hidx) as (sel & E & Hlen & Hin).
  exists sel. unfold index_select. rewrite E. split; [done|]. split; [done|].
  eapply Forall_impl; [exact Hin|]. intros row Hrow. simpl.
  by eapply (proj1 (Forall_forall _ _) Hwf).
Qed.

Lemma index_select_vec v idx :
  Forall (λ i, i < length v) idx →
  ∃ sel, index_select (Vec v) idx = OK (Vec sel) ∧ length sel = length idx.
Proof.
  intros Hidx. destruct (mapM_lookup_lt v idx Hidx) as (sel & E & Hlen & _).
  exists sel. unfold index_select. by rewrite E.
Qed.

(** *** Masking *)

Lemma length_fill {A} (c : A) l idx : length (fill c l idx) = length l.
Proof.
  revert l. induction idx as [|i idx IH]; intros l; [done|].
  simpl. unfold fill in *. simpl. by rewrite IH, length_insert.
Qed.

Lemma lookup_fill_out {A} (c : A) l idx j :
  j ∉ idx → fill c l idx !! j = l !! j.
Proof.
  revert l. induction idx as [|i idx IH]; intros l Hj; [done|].
  apply not_elem_of_cons in Hj as [Hne Hj]. unfold fill in *. simpl.
  rewrite IH by done. by apply list_lookup_insert_ne.
Qed.

Lemma lookup_fill_in {A} (c : A) l idx j :
  j ∈ idx → j < length l → fill c l idx !! j = Some c.
Proof.
  revert l. induction idx as [|i idx IH]; intros l Hj Hlt.
  - by apply elem_of_nil in Hj.
  - unfold fill in *. simpl. destruct (decide (j ∈ idx)) as [Hin|Hout].
    + apply IH; [done|]. by rewrite length_insert.
    + apply elem_of_cons in Hj as [->|]; [|done].
      fold (fill c (<[i:=c]> l) idx). rewrite lookup_fill_out by done.
      by apply list_lookup_insert_eq.
Qed.

Lemma index_fill_vec v idx c :
  Forall (λ i, i < length v) idx →
  index_fill (Vec v) idx c = OK (Vec (fill c v idx)).
Proof. intros Hidx. unfold index_fill. by rewrite decide_True. Qed.

(** *** argmax *)

Lemma argmax_from_range best_i best i v :
  let r := argmax_from best_i best i v in
  r = best_i ∨ i ≤ r < i + length v.
Proof.
  revert best_i best i. induction v as [|x v IH]; intros best_i best i; simpl.
  - by left.
  - destruct (beats x best).
    + destruct (IH i x (S i)) as [->|]; right; lia.
    + destruct (IH best_i best (S i)) as [->|]; [by left | right; lia].
Qed.

Lemma vargmax_lt v r : vargmax v = OK r → r < length v.
Proof.
  destruct v as [|x v]; [done|]. simpl. intros [= <-].
  destruct (argmax_from_range 0 x 1 v) as [->|]; lia.
Qed.

Lemma vargmax_OK v : v ≠ [] → ∃ r, vargmax v = OK r.
Proof. destruct v; [done|]. simpl. eauto. Qed.

(** *** The masked scores of a vector posterior *)

Lemma masked_scores_vec m s idx :
  length m = length s → Forall (λ i, i < length m) idx →
  masked_scores {| mean := Vec m; stddev := Vec s |} idx
  = OK (Vec (fill sentinel
               (zip_with (λ a b, a ⊕ default_epsilon ⊗ b) m s) idx)).
Proof.
  intros E Hidx. unfold masked_scores. rewrite UCB_vec by done. simpl.
  rewrite decide_True; [done|].
  by rewrite length_zip_with_l_eq.
Qed.
End SelectionFacts.

(** ** The loop *)

Section CampaignFacts.
Context {T : Type} `{Scalar T} {GP : Type}.
Variable fit_gp : tensor T → tensor T → result GP.
Variable predict : GP → tensor T → result (Posterior (tensor T)).
Variable randperm : nat → list nat.
Variables (N D : nat) (rows : list (list T)) (ys : list T).
Hypothesis Hrows : length rows = N.
Hypothesis Hys : length ys = N.
Hypothesis Hwf : Forall (λ row, length row = D) rows.
Hypothesis Hgp : surrogate_ok fit_gp predict.

Lemma initial_OK n_initial :
  Forall (λ i, i < N) (randperm N) →
  ∃ st, initial randperm N (Mat D rows) (Vec ys) n_initial = OK st
    ∧ evaluated st = take n_initial (randperm N)
    ∧ state_ok N D st.
Proof.
  intros Hperm.
  assert (Forall (λ i, i < N) (take n_initial (randperm N))) as Hidx
    by by apply Forall_take.
  destruct (index_select_mat D rows (take n_initial (randperm N)))
    as (X & EX & _ & HX); [done | by rewrite Hrows |].
  destruct (index_select_vec ys (take n_initial (randperm N)))
    as (y & Ey & _); [by rewrite Hys|].
  exists (take n_initial (randperm N), Mat D X, Vec y).
  unfold initial. cbn [clone torch_value mbind result_bind]. rewrite EX.
  cbn [mbind result_bind]. rewrite Ey. cbn [mbind result_bind].
  split; [done|]. split; [done|]. by exists (take n_initial (randperm N)), X, y.
Qed.

(** One pass from a well-formed state: the posterior is masked at the
    evaluated indices, and the position of the greatest masked score is
    appended. *)
Lemma trial_OK st :
  0 < N → state_ok N D st →
  ∃ gp Q m s best st',
    predict gp Q = OK {| mean := Vec m; stddev := Vec s |}
    ∧ length m = N ∧ length s = N
    ∧ vargmax (fill sentinel (zip_with (λ a b, a ⊕ default_epsilon ⊗ b) m s)
                 (evaluated st)) = OK best
    ∧ best < N
    ∧ trial fit_gp predict (Mat D rows) (Vec ys) (fitted D rows) st = OK st'
    ∧ evaluated st' = evaluated st ++ [best]
    ∧ state_ok N D st'.
Proof.
  intros HN (idx & X & y & -> & Hidx & HX).
  destruct Hgp as [Hfit Hpred].
  unfold trial, fitted.
  rewrite !std_transform_mat by (done || apply length_col_stat).
  rewrite std_fit_transform_vec. cbn [mbind result_bind].
  match goal with
  | |- context [fit_gp ?Xs ?ysc] => destruct (Hfit Xs ysc) as [gp Egp]
  end.
  rewrite Egp. cbn [mbind result_bind].
  set (Q := scale_row _ _ <$> rows).
  destruct (Hpred gp D Q) as (m & s & Epred & Hm & Hs).
  assert (length Q = N) as HQ by (unfold Q; by rewrite length_fmap).
  rewrite HQ in Hm, Hs. rewrite Epred. cbn [mbind result_bind].
  rewrite masked_scores_vec by (by rewrite ?Hm, ?Hs). cbn [mbind result_bind].
  set (scores := fill sentinel _ idx).
  assert (length scores = N) as Hlen.
  { unfold scores. by rewrite length_fill, length_zip_with_l_eq by congruence. }
  destruct (vargmax_OK scores) as [best Ebest].
  { intros E. rewrite E in Hlen. simpl in Hlen. lia. }
  assert (best < N) as Hbest by (rewrite <- Hlen; by apply vargmax_lt).
  unfold argmax. cbn [flatten]. rewrite Ebest. cbn [mbind result_bind].
  assert (Forall (λ i, i < N) (idx ++ [best])) as Hidx'.
  { apply Forall_app. split; [done|]. by repeat constructor. }
  destruct (index_select_mat D rows (idx ++ [best]))
    as (X' & EX & _ & HX'); [done | by rewrite Hrows |].
  destruct (index_select_vec ys (idx ++ [best])) as (y' & Ey & _);
    [by rewrite Hys|].
  rewrite EX. cbn [mbind result_bind]. rewrite Ey. cbn [mbind result_bind].
  exists gp, (Mat D Q), m, s, best, (idx ++ [best], Mat D X', Vec y').
  split_and!; [done..|]. by exists (idx ++ [best]), X', y'.
Qed.

(** The loop, pass after pass. *)
Lemma trials_snoc (s : TorchStandardScaler.t (tensor T)) k st :
  trials fit_gp predict (Mat D rows) (Vec ys) s (S k) st
  = (st' ← trials fit_gp predict (Mat D rows) (Vec ys) s k st;
     trial fit_gp predict (Mat D rows) (Vec ys) s st').
Proof.
  revert st. induction k as [|k IH]; intros st.
  - simpl. by destruct (trial _ _ _ _ _ st).
  - change (trials fit_gp predict (Mat D rows) (Vec ys) s (S (S k)) st)
      with (st1 ← trial fit_gp predict (Mat D rows) (Vec ys) s st;
            trials fit_gp predict (Mat D rows) (Vec ys) s (S k) st1).
    destruct (trial fit_gp predict (Mat D rows) (Vec ys) s st) as [st1|e] eqn:E.
    + cbn [mbind result_bind]. rewrite IH. simpl. rewrite E. done.
    + simpl. rewrite E. done.
Qed.

Lemma run_unfold n_initial k :
  run fit_gp predict randperm N (Mat D rows) (Vec ys) n_initial k
  = (st ← initial randperm N (Mat D rows) (Vec ys) n_initial;
     trials fit_gp predict (Mat D rows) (Vec ys) (fitted D rows) k st).
Proof. unfold run. by rewrite std_fit_mat. Qed.

Lemma run_succ n_initial k :
  run fit_gp predict randperm N (Mat D rows) (Vec ys) n_initial (S k)
  = (st ← run fit_gp predict randperm N (Mat D rows) (Vec ys) n_initial k;
     trial fit_gp predict (Mat D rows) (Vec ys) (fitted D rows) st).
Proof.
  rewrite !run_unfold.
  destruct (initial randperm N (Mat D rows) (Vec ys) n_initial) as [st|e]; [|done].
  cbn [mbind result_bind]. apply trials_snoc.
Qed.

(** No pass raises, and each appends one index below [N]. *)
Lemma run_total n_initial k :
  0 < N → Forall (λ i, i < N) (randperm N) →
  ∃ st, run fit_gp predict randperm N (Mat D rows) (Vec ys) n_initial k = OK st
    ∧ state_ok N D st
    ∧ length (evaluated st) = length (take n_initial (randperm N)) + k.
Proof.
  intros HN Hperm. induction k as [|k (st & Erun & Hst & Hlen)].
  - destruct (initial_OK n_initial Hperm) as (st & E & Eidx & Hst).
    exists st. rewrite run_unfold, E. simpl. rewrite Eidx. split_and!; [done..|lia].
  - destruct (trial_OK st HN Hst)
      as (gp & Q & m & s & best & st' & _ & _ & _ & _ & _ & Etrial & Eidx & Hst').
    exists st'. rewrite run_succ, Erun. cbn [mbind result_bind].
    split_and!; [done..|]. rewrite Eidx, length_app, Hlen. simpl. lia.
Qed.
End CampaignFacts.

(** ** The campaign on the sample pool, evaluated on binary64 *)

(** a budget within the pool: the one candidate left is selected *)
Example sample_campaign_one_pass :
  sample_campaign 0 1 1 2 = OK [2; 0; 1].
Proof. vm_compute. reflexivity. Qed.

(** more passes than candidates left: the fourth entry repeats the second *)
Example sample_campaign_exhausted :
  sample_campaign 0 1 2 2 = OK [2; 0; 1; 0].
Proof. vm_compute. reflexivity. Qed.

(** ** Length and order of the evaluated indices *)

Lemma randperm_range (randperm : nat → list nat) N :
  randperm N ≡ₚ seq 0 N → Forall (λ i, i < N) (randperm N).
Proof.
  intros Hperm. rewrite Hperm. apply Forall_forall. intros i Hi.
  apply elem_of_seq in Hi. lia.
Qed.

Lemma length_initial_sample (randperm : nat → list nat) N n_initial :
  randperm N ≡ₚ seq 0 N →
  length (take n_initial (randperm N)) = n_initial `min` N.
Proof. intros Hperm. by rewrite length_take, Hperm, length_seq. Qed.

Section Budget.
Context {T : Type} `{Scalar T} {GP : Type}.
Variable fit_gp : tensor T → tensor T → result GP.
Variable predict : GP → tensor T → result (Posterior (tensor T)).
Variable randperm : nat → list nat.
Variables (N D : nat) (rows : list (list T)) (ys : list T).
Hypothesis Hrows : length rows = N.
Hypothesis Hys : length ys = N.
Hypothesis Hwf : Forall (λ row, length row = D) rows.
Hypothesis Hgp : surrogate_ok fit_gp predict.
Hypothesis Hperm : randperm N ≡ₚ seq 0 N.

(** later passes only append: the state after [k] passes holds the first
    entries of the state after [k + j] passes *)
Lemma run_prefix n_initial k j :
  0 < N →
  ∃ st st', run fit_gp predict randperm N (Mat D rows) (Vec ys) n_initial k = OK st
    ∧ run fit_gp predict randperm N (Mat D rows) (Vec ys) n_initial (k + j) = OK st'
    ∧ evaluated st = take (length (evaluated st)) (evaluated st').
Proof.
  intros HN. pose proof (randperm_range randperm N Hperm) as Hrange.
  destruct (run_total fit_gp predict randperm N D rows ys Hrows Hys Hwf Hgp
              n_initial k HN Hrange) as (st & Erun & Hst & Hlen).
  exists st. induction j as [|j (st' & _ & Erun' & Hpre)].
  - exists st. rewrite Nat.add_0_r. split_and!; [done..|]. by rewrite firstn_all.
  - destruct (run_total fit_gp predict randperm N D rows ys Hrows Hys Hwf Hgp
                n_initial (k + j) HN Hrange) as (st1 & Erun1 & Hst1 & Hlen1).
    rewrite Erun1 in Erun'. injection Erun' as ->.
    destruct (trial_OK fit_gp predict N D rows ys Hrows Hys Hwf Hgp st' HN Hst1)
      as (gp & Q & m & s & best & st2 & _ & _ & _ & _ & _ & Etrial & Eidx & _).
    exists st2. split; [done|]. split.
    + replace (k + S j) with (S (k + j)) by lia.
      rewrite run_succ, Erun1 by done. done.
    + rewrite Eidx, take_app_le; [done|].
      rewrite Hpre at 1. rewrite length_take. lia.
Qed.

(** The loop makes every pass over a pool that is not empty, whatever the
    scores are and whatever initial sample is asked for: it ends with
    [min n_initial N + op_budget] evaluated indices, the initial sample
    first, and the indices held after [k] passes are the first
    [min n_initial N + k] of the final ones. *)
Lemma run_whole_budget op_budget n_initial :
  0 < N →
  ∃ st,
    run fit_gp predict randperm N (Mat D rows) (Vec ys) n_initial op_budget = OK st
    ∧ length (evaluated st) = n_initial `min` N + op_budget
    ∧ take (n_initial `min` N) (evaluated st) = take n_initial (randperm N)
    ∧ ∀ k, k ≤ op_budget →
        ∃ st_k,
          run fit_gp predict randperm N (Mat D rows) (Vec ys) n_initial k = OK st_k
          ∧ evaluated st_k = take (n_initial `min` N + k) (evaluated st).
Proof.
  intros HN.
  pose proof (randperm_range randperm N Hperm) as Hrange.
  pose proof (length_initial_sample randperm N n_initial Hperm) as Hinit.
  destruct (run_total fit_gp predict randperm N D rows ys Hrows Hys Hwf Hgp
              n_initial op_budget HN Hrange) as (st & Erun & _ & Hlen).
  rewrite Hinit in Hlen.
  assert (∀ k, k ≤ op_budget →
            ∃ st_k,
              run fit_gp predict randperm N (Mat D rows) (Vec ys) n_initial k = OK st_k
              ∧ evaluated st_k = take (n_initial `min` N + k) (evaluated st))
    as Hpasses.
  { intros k Hk.
    destruct (run_prefix n_initial k (op_budget - k) HN)
      as (st_k & st' & Ek & E' & Hpre).
    replace (k + (op_budget - k)) with op_budget in E' by lia.
    rewrite Erun in E'. injection E' as <-.
    exists st_k. split; [done|].
    destruct (run_total fit_gp predict randperm N D rows ys Hrows Hys Hwf Hgp
                n_initial k HN Hrange) as (st1 & E1 & _ & Hlen1).
    rewrite Ek in E1. injection E1 as <-.
    rewrite Hinit in Hlen1. by rewrite <- Hlen1. }
  exists st. split; [exact Erun|]. split; [exact Hlen|]. split; [|exact Hpasses].
  destruct (Hpasses 0) as (st0 & E0 & Hpre0); [lia|].
  rewrite Nat.add_0_r in Hpre0. rewrite <- Hpre0.
  destruct (initial_OK randperm N D rows ys Hrows Hys Hwf n_initial Hrange)
    as (st0' & Einit & Eidx & _).
  rewrite run_unfold, Einit in E0. simpl in E0. injection E0 as <-.
  by rewrite Eidx.
Qed.

(** C4.  With a positive budget and a positive initial sample that fits the
    pool, the loop makes all [op_budget] passes and stops on none of them:
    it ends with exactly [n_initial + op_budget] evaluated indices, the
    initial sample first, and the indices held after [k] passes are the
    first [n_initial + k] of the final ones, in the order of selection. *)
Theorem campaign_runs_whole_budget op_budget n_initial :
  0 < op_budget → 0 < n_initial → n_initial ≤ N →
  ∃ st,
    campaign fit_gp predict randperm N (Mat D rows) (Vec ys) op_budget n_initial
    = OK st
    ∧ length (evaluated st) = n_initial + op_budget
    ∧ take n_initial (evaluated st) = take n_initial (randperm N)
    ∧ ∀ k, k ≤ op_budget →
        ∃ st_k,
          run fit_gp predict randperm N (Mat D rows) (Vec ys) n_initial k = OK st_k
          ∧ evaluated st_k = take (n_initial + k) (evaluated st).
Proof.
  intros Hb Hn HnN. assert (0 < N) as HN by lia.
  destruct (run_whole_budget op_budget n_initial HN)
    as (st & Erun & Hlen & Hinit & Hpasses).
  rewrite Nat.min_l in Hlen, Hinit by done.
  exists st. split; [exact Erun|]. split; [exact Hlen|]. split; [exact Hinit|].
  intros k Hk. destruct (Hpasses k Hk) as (st_k & Ek & Hpre).
  rewrite Nat.min_l in Hpre by done. by exists st_k.
Qed.

(** C3, amended.  Nothing checks the configuration.  Over a pool that is not
    empty the campaign returns for every initial sample size and every
    budget, with [min n_initial N + op_budget] evaluated indices; and [UCB]
    returns scores for every exploration coefficient. *)
Theorem campaign_accepts_every_configuration op_budget n_initial :
  0 < N →
  (∃ st,
     campaign fit_gp predict randperm N (Mat D rows) (Vec ys) op_budget n_initial
     = OK st
     ∧ length (evaluated st) = n_initial `min` N + op_budget)
  ∧ ∀ (epsilon : T) m s, length m = length s →
      ∃ scores,
        UCB (M:=result) {| mean := Vec m; stddev := Vec s |} epsilon
        = OK (Vec scores)
        ∧ length scores = length m.
Proof.
  intros HN. split.
  - destruct (run_total fit_gp predict randperm N D rows ys Hrows Hys Hwf Hgp
                n_initial op_budget HN (randperm_range randperm N Hperm))
    as (st & Erun & _ & Hlen).
    exists st. split; [exact Erun|].
    by rewrite <- (length_initial_sample randperm N n_initial Hperm).
  - intros epsilon m s E. eexists. split; [by apply UCB_vec|].
    by rewrite length_zip_with_l_eq.
Qed.
End Budget.

(** ** The comparison of both arithmetics is a strict order *)

Lemma Rltb_true x y : Rltb x y = true ↔ (x < y)%R.
Proof. unfold Rltb. destruct (Rlt_dec x y); split; (done || lra). Qed.

#[export] Instance real_ordered : OrderedScalar R.
Proof.
  split; simpl.
  - intros a. destruct (Rltb a a) eqn:E; [|done].
    apply Rltb_true in E. lra.
  - intros a b c Hab%Rltb_true Hbc%Rltb_true. apply Rltb_true. lra.
Qed.

(** On binary64 the order is the lexicographic one on sign, exponent and
    mantissa that [SFcompare] spells out. *)
Ltac cases_compare :=
  repeat match goal with
    | H : context [(?a ?= ?b)%Z] |- _ => destruct (Z.compare_spec a b)
    | |- context [(?a ?= ?b)%Z] => destruct (Z.compare_spec a b)
    | H : context [(?a ?= ?b)%positive] |- _ => destruct (Pos.compare_spec a b)
    | |- context [(?a ?= ?b)%positive] => destruct (Pos.compare_spec a b)
    end.

Lemma SFltb_irrefl x : SpecFloat.SFltb x x = false.
Proof.
  unfold SpecFloat.SFltb, SpecFloat.SFcompare.
  destruct x as [s|s| |s m e]; try destruct s; try reflexivity;
    change (PosDef.Pos.compare_cont Eq m m) with (Pos.compare m m);
    by rewrite Z.compare_refl, Pos.compare_refl.
Qed.

Lemma SFltb_trans x y z :
  SpecFloat.SFltb x y = true → SpecFloat.SFltb y z = true →
  SpecFloat.SFltb x z = true.
Proof.
  unfold SpecFloat.SFltb, SpecFloat.SFcompare.
  destruct x as [sx|sx| |sx mx ex], y as [sy|sy| |sy my ey],
    z as [sz|sz| |sz mz ez];
    try destruct sx; try destruct sy; try destruct sz;
    try discriminate; try reflexivity;
    change (PosDef.Pos.compare_cont Eq) with Pos.compare;
    intros H1 H2; cases_compare; simpl in *;
    try discriminate; try reflexivity; exfalso; subst; lia.
Qed.

#[export] Instance float_ordered : OrderedScalar float.
Proof.
  split; simpl.
  - intros a. rewrite FloatAxioms.ltb_spec. apply SFltb_irrefl.
  - intros a b c. rewrite !FloatAxioms.ltb_spec. apply SFltb_trans.
Qed.

(** ** No index twice *)

Section Distinct.
Context {T : Type} `{OrderedScalar T}.
Implicit Types (v scores : list T) (idx : list nat).

Lemma beats_irrefl (a : T) : beats a a = false.
Proof.
  unfold beats. destruct (isnan a); [done|]. simpl. apply sltb_irrefl.
Qed.

(** an entry that the old best kept off is kept off by the new best *)
Lemma beats_chain (x best e : T) :
  beats x best = true → beats e best = false → beats e x = false.
Proof.
  unfold beats. intros Hx He.
  destruct (isnan best); [done|]. simpl in *.
  destruct (isnan x); [done|]. simpl in *.
  destruct (isnan e); [done|]. simpl in *.
  destruct (x ≺? e) eqn:Hxe; [|done].
  by rewrite (sltb_trans best x e Hx Hxe) in He.
Qed.

(** the scan ends on an entry that no entry beats *)
Lemma argmax_from_unbeaten best_i (best : T) i v :
  ∃ val,
    (argmax_from best_i best i v = best_i ∧ val = best
     ∨ ∃ k, argmax_from best_i best i v = i + k ∧ v !! k = Some val)
    ∧ (∀ e, beats e best = false → beats e val = false)
    ∧ Forall (λ x, beats x val = false) v.
Proof.
  revert best_i best i. induction v as [|x v IH]; intros best_i best i.
  - exists best. split; [by left|]. split; [done|constructor].
  - cbn [argmax_from]. destruct (beats x best) eqn:E.
    + destruct (IH i x (S i)) as (val & Hat & Hmono & Hall).
      exists val. split; [|split].
      * right. destruct Hat as [[-> ->]|(k & -> & Hk)].
        -- exists 0. split; [lia|done].
        -- exists (S k). split; [lia|done].
      * intros e He. apply Hmono. by eapply beats_chain.
      * constructor; [|done]. apply Hmono, beats_irrefl.
    + destruct (IH best_i best (S i)) as (val & Hat & Hmono & Hall).
      exists val. split; [|split; [done|constructor; [by apply Hmono|done]]].
      destruct Hat as [[-> ->]|(k & -> & Hk)]; [by left|].
      right. exists (S k). split; [lia|done].
Qed.

Lemma vargmax_unbeaten v r :
  vargmax v = OK r →
  ∃ val, v !! r = Some val ∧ Forall (λ x, beats x val = false) v.
Proof.
  destruct v as [|x v]; [done|]. simpl. intros [= <-].
  destruct (argmax_from_unbeaten 0 x 1 v) as (val & Hat & Hmono & Hall).
  exists val. split.
  - destruct Hat as [[-> ->]|(k & -> & Hk)]; done.
  - constructor; [apply Hmono, beats_irrefl | done].
Qed.

(** a list of distinct indices below [N], shorter than [N], misses one *)
Lemma unused_index N idx :
  NoDup idx → Forall (λ i, i < N) idx → length idx < N →
  ∃ j, j < N ∧ j ∉ idx.
Proof.
  intros Hnd Hrange Hlen.
  destruct (decide (Forall (λ j, j ∈ idx) (seq 0 N))) as [Hall|Hex].
  - exfalso.
    assert (seq 0 N ⊆+ idx) as Hsub.
    { apply NoDup_submseteq; [apply NoDup_seq|].
      intros j Hj. by apply (proj1 (Forall_forall _ _) Hall). }
    apply submseteq_length in Hsub. rewrite length_seq in Hsub. lia.
  - apply not_Forall_Exists in Hex; [|apply _].
    apply Exists_exists in Hex as (j & Hj & Hout).
    exists j. apply elem_of_seq in Hj. split; [lia|done].
Qed.

(** when some candidate is left and every score beats the sentinel, the
    greatest masked score is not at an evaluated index *)
Lemma argmax_masked_unevaluated scores idx best :
  Forall (λ x, beats x sentinel = true) scores →
  NoDup idx → Forall (λ i, i < length scores) idx →
  length idx < length scores →
  vargmax (fill sentinel scores idx) = OK best →
  best ∉ idx.
Proof.
  intros Habove Hnd Hrange Hlen Hbest Hin.
  destruct (unused_index (length scores) idx Hnd Hrange Hlen) as (j & Hj & Hout).
  destruct (vargmax_unbeaten _ _ Hbest) as (val & Hval & Hmax).
  assert (best < length scores) as Hlt.
  { apply vargmax_lt in Hbest. by rewrite length_fill in Hbest. }
  rewrite lookup_fill_in in Hval by done. injection Hval as <-.
  destruct (lookup_lt_is_Some_2 scores j Hj) as [x Hx].
  assert (fill sentinel scores idx !! j = Some x) as Hxj
    by by rewrite lookup_fill_out.
  pose proof (Forall_lookup_1 _ _ _ _ Hmax Hxj) as Hle. simpl in Hle.
  pose proof (Forall_lookup_1 _ _ _ _ Habove Hx) as Hgt. simpl in Hgt.
  congruence.
Qed.
End Distinct.

Section DistinctCampaign.
Context {T : Type} `{OrderedScalar T} {GP : Type}.
Variable fit_gp : tensor T → tensor T → result GP.
Variable predict : GP → tensor T → result (Posterior (tensor T)).
Variable randperm : nat → list nat.
Variables (N D : nat) (rows : list (list T)) (ys : list T).
Hypothesis Hrows : length rows = N.
Hypothesis Hys : length ys = N.
Hypothesis Hwf : Forall (λ row, length row = D) rows.
Hypothesis Hgp : surrogate_ok fit_gp predict.
Hypothesis Hperm : randperm N ≡ₚ seq 0 N.
Hypothesis Habove : above_sentinel predict.

(** one pass keeps the evaluated indices distinct while candidates remain *)
Lemma trial_distinct st :
  state_ok N D st → NoDup (evaluated st) → length (evaluated st) < N →
  ∃ best st',
    trial fit_gp predict (Mat D rows) (Vec ys) (fitted D rows) st = OK st'
    ∧ evaluated st' = evaluated st ++ [best]
    ∧ (best ∉ evaluated st) ∧ best < N
    ∧ state_ok N D st' ∧ NoDup (evaluated st').
Proof.
  intros Hst Hnd Hlen. assert (0 < N) as HN by lia.
  destruct (trial_OK fit_gp predict N D rows ys Hrows Hys Hwf Hgp st HN Hst)
    as (gp & Q & m & s & best & st' & Epred & Hm & Hs & Ebest & Hlt & Etrial
        & Eidx & Hst').
  assert (best ∉ evaluated st) as Hout.
  { assert (length (zip_with (λ a b : T, a ⊕ default_epsilon ⊗ b) m s) = N)
      as Hsc by (rewrite length_zip_with_l_eq; congruence).
    eapply argmax_masked_unevaluated; [| exact Hnd | | | exact Ebest].
    - by eapply Habove.
    - rewrite Hsc. by destruct Hst as (idx & X & y & -> & Hidx & _).
    - by rewrite Hsc. }
  exists best, st'. split_and!; [done..|].
  rewrite Eidx. apply NoDup_app. split_and!; [done | | apply NoDup_singleton].
  intros i Hi ->%list_elem_of_singleton. done.
Qed.

(** C2, amended.  While the initial sample and the passes made so far leave
    a candidate ([n_initial + k ≤ N]) and every score of the surrogate beats
    the sentinel, the evaluated indices after [k] passes are [n_initial + k]
    distinct indices below [N], and the next pass appends exactly one index
    that was not among them.  This holds in every arithmetic whose
    comparison is a strict order, binary64 and the reals among them. *)
Theorem evaluated_indices_grow_distinct op_budget n_initial k :
  0 < N → n_initial + op_budget ≤ N → k ≤ op_budget →
  ∃ st,
    run fit_gp predict randperm N (Mat D rows) (Vec ys) n_initial k = OK st
    ∧ length (evaluated st) = n_initial + k
    ∧ NoDup (evaluated st)
    ∧ Forall (λ i, i < N) (evaluated st)
    ∧ (k < op_budget →
       ∃ best st',
         run fit_gp predict randperm N (Mat D rows) (Vec ys) n_initial (S k)
         = OK st'
         ∧ evaluated st' = evaluated st ++ [best]
         ∧ (best ∉ evaluated st) ∧ best < N).
Proof.
  intros HN Hfit Hk.
  pose proof (randperm_range randperm N Hperm) as Hrange.
  assert (∃ st,
            run fit_gp predict randperm N (Mat D rows) (Vec ys) n_initial k = OK st
            ∧ length (evaluated st) = n_initial + k
            ∧ NoDup (evaluated st) ∧ state_ok N D st) as (st & Erun & Hlen & Hnd & Hst).
  { induction k as [|k' IH].
    - destruct (initial_OK randperm N D rows ys Hrows Hys Hwf n_initial Hrange)
        as (st & Einit & Eidx & Hst).
      exists st. rewrite run_unfold, Einit. split; [done|].
      rewrite Eidx. split_and!; [| |done].
      + rewrite (length_initial_sample randperm N n_initial Hperm). lia.
      + eapply sublist_NoDup; [|apply sublist_take].
        rewrite Hperm. apply NoDup_seq.
    - destruct IH as (st & Erun & Hlen & Hnd & Hst); [lia|].
      destruct (trial_distinct st Hst Hnd) as (best & st' & Etrial & Eidx & _ & _ & Hst' & Hnd');
        [lia|].
      exists st'. rewrite run_succ, Erun by done. split; [done|].
      split_and!; [|done..]. rewrite Eidx, length_app, Hlen. simpl. lia. }
  exists st. split; [exact Erun|]. split; [exact Hlen|]. split; [exact Hnd|].
  split; [by destruct Hst as (idx & X & y & -> & Hidx & _)|].
  intros Hk'.
  destruct (trial_distinct st Hst Hnd) as (best & st' & Etrial & Eidx & Hout & Hlt & _);
    [lia|].
  exists best, st'. rewrite run_succ, Erun by done. done.
Qed.
End DistinctCampaign.

(** ** The sample campaign meets the assumptions *)

Lemma flat_surrogate_ok {T} (mu sigma : T) :
  surrogate_ok flat_fit (flat_predict mu sigma).
Proof.
  split.
  - intros X y. by exists tt.
  - intros gp D Q. exists (replicate (length Q) mu), (replicate (length Q) sigma).
    by rewrite !length_replicate.
Qed.

Lemma sample_randperm_perm : sample_randperm 3 ≡ₚ seq 0 3.
Proof.
  unfold sample_randperm. simpl.
  transitivity [0; 2; 1]; [apply perm_swap | apply perm_skip, perm_swap].
Qed.

Lemma pool_rows_float_wf : Forall (λ row, length row = 2) pool_rows_float.
Proof. by repeat constructor. Qed.

Lemma flat_above_sentinel_float : above_sentinel (flat_predict 0%float 1%float).
Proof.
  intros gp Q m s. unfold flat_predict. intros [= <- <-].
  rewrite zip_with_replicate. apply Forall_replicate.
  vm_compute. reflexivity.
Qed.

(** ** C1 to C4 on the sample pool *)

(** C1.  A posterior whose scores lie below the sentinel: after masking, the
    score of the evaluated index 2 is -100 and the scores of the candidates 0
    and 1 are -200, so the evaluated index has the greatest score, argmax
    returns it, and the campaign evaluates it again. *)
Theorem sentinel_above_low_scores :
  masked_scores {| mean := Vec [-200; -200; -200]%float;
                   stddev := Vec [0; 0; 0]%float |} [2]
  = OK (Vec [-200; -200; -100]%float)
  ∧ PrimFloat.ltb (-100) (-200) = false
  ∧ argmax (Vec [-200; -200; -100]%float) = OK 2
  ∧ sample_campaign (-200) 0 1 1 = OK [2; 2].
Proof. split_and!; vm_compute; reflexivity. Qed.

(** C2, as stated, fails once the pool is exhausted: three candidates, two in
    the initial sample and two passes give four evaluated indices, of which
    the last repeats an earlier one. *)
Lemma exhausted_pool_repeats_index :
  sample_campaign 0 1 2 2 = OK [2; 0; 1; 0] ∧ ¬ NoDup [2; 0; 1; 0].
Proof.
  split; [vm_compute; reflexivity|].
  intros Hnd. apply NoDup_cons in Hnd as [_ Hnd].
  apply NoDup_cons in Hnd as [Hout _]. apply Hout. set_solver.
Qed.

Lemma evaluated_indices_grow_distinct_witness :
  ∃ st,
    run flat_fit (flat_predict 0%float 1%float) sample_randperm 3
      (Mat 2 pool_rows_float) (Vec pool_ys_float) 2 1 = OK st
    ∧ length (evaluated st) = 3
    ∧ NoDup (evaluated st)
    ∧ Forall (λ i, i < 3) (evaluated st).
Proof.
  destruct (evaluated_indices_grow_distinct flat_fit (flat_predict 0%float 1%float)
              sample_randperm 3 2 pool_rows_float pool_ys_float
              eq_refl eq_refl pool_rows_float_wf (flat_surrogate_ok _ _)
              sample_randperm_perm flat_above_sentinel_float 1 2 1)
    as (st & Erun & Hlen & Hnd & Hrange & _); [lia..|].
  by exists st.
Defined.

(** C3, as stated, fails: an initial sample size above the pool size and a
    budget beyond the pool are accepted, and so is an infinite exploration
    coefficient. *)
Lemma oversized_configuration_accepted :
  sample_campaign 0 1 2 5 = OK [2; 0; 1; 0; 0]
  ∧ UCB (M:=result) {| mean := Vec [0; 1]%float; stddev := Vec [1; 0]%float |}
      infinity
    = OK (Vec [infinity; nan]%float).
Proof. split; vm_compute; reflexivity. Qed.

Lemma campaign_accepts_every_configuration_witness :
  (∃ st,
     campaign flat_fit (flat_predict 0%float 1%float) sample_randperm 3
       (Mat 2 pool_rows_float) (Vec pool_ys_float) 2 5 = OK st
     ∧ length (evaluated st) = 5).
Proof.
  destruct (campaign_accepts_every_configuration flat_fit
              (flat_predict 0%float 1%float) sample_randperm 3 2
              pool_rows_float pool_ys_float eq_refl eq_refl pool_rows_float_wf
              (flat_surrogate_ok _ _) sample_randperm_perm 2 5)
    as [(st & Erun & Hlen) _]; [lia|].
  by exists st.
Defined.

(** outside that configuration: an initial sample asked larger than the
    pool holds the whole pool, since [randperm(3)[:4]] has three indices *)
Example oversized_initial_sample_truncated :
  sample_campaign 0 1 1 4 = OK [2; 0; 1; 0].
Proof. vm_compute. reflexivity. Qed.

Lemma campaign_runs_whole_budget_witness :
  ∃ st,
    campaign flat_fit (flat_predict 0%float 1%float) sample_randperm 3
      (Mat 2 pool_rows_float) (Vec pool_ys_float) 1 2 = OK st
    ∧ length (evaluated st) = 3
    ∧ take 2 (evaluated st) = [2; 0].
Proof.
  destruct (campaign_runs_whole_budget flat_fit (flat_predict 0%float 1%float)
              sample_randperm 3 2 pool_rows_float pool_ys_float
              eq_refl eq_refl pool_rows_float_wf (flat_surrogate_ok _ _)
              sample_randperm_perm 1 2)
    as (st & Erun & Hlen & Hinit & _); [lia..|].
  by exists st.
Defined.

(** * Further properties of the notebook's code *)

(** ** The scalers on every tensor: composition, shapes and exceptions *)

Section ScalerShapes.
Context {T : Type} `{Scalar T}.
Implicit Types (x z a b r : tensor T) (rows xs : list (list T)).

Lemma broadcast_inplace_shape (f : T → T → T) a b r :
  broadcast_inplace f a b = OK r → shape r = shape a.
Proof.
  unfold broadcast_inplace. destruct (broadcast f a b) as [r'|]; simpl; [|done].
  case_decide; [|done]. by intros [= <-].
Qed.

Lemma norm_fit_transform_eq (self : TorchNormalizer.t (tensor T)) x :
  TorchNormalizer.fit_transform self x
  = (s ← TorchNormalizer.fit self x;
     z ← TorchNormalizer.transform s x; OK (s, z)).
Proof.
  unfold TorchNormalizer.fit_transform, TorchNormalizer.fit,
    TorchNormalizer.transform. simpl.
  destruct (extreme0 smax x) as [mx|]; [|done]. simpl.
  destruct (extreme0 smin x) as [mn|]; [|done]. simpl.
  destruct (broadcast ssub x mn) as [c|]; [|done]. simpl.
  destruct (broadcast ssub mx mn) as [d|]; [|done]. simpl.
  by destruct (broadcast sdiv c d).
Qed.

(** X1.  [TorchStandardScaler.fit_transform] is [fit] followed by
    [transform] on the same tensor: the same statistics are stored and the
    same tensor is returned, or the same exception is raised, whatever the
    tensor and the arithmetic; and [fit] does not depend on what an earlier
    fit stored. *)
Theorem standard_scaler_fit_transform_composes
    (self : TorchStandardScaler.t (tensor T)) x :
  TorchStandardScaler.fit_transform self x
  = (s ← TorchStandardScaler.fit self x;
     z ← TorchStandardScaler.transform s x; OK (s, z))
  ∧ TorchStandardScaler.fit self x
    = TorchStandardScaler.fit TorchStandardScaler.new x.
Proof. split; [apply std_fit_transform_eq | reflexivity]. Qed.

(** X2.  [TorchNormalizer.fit_transform] is [fit] followed by [transform]
    on the same tensor, exceptions included, and [fit] does not depend on
    what an earlier fit stored. *)
Theorem normalizer_fit_transform_composes
    (self : TorchNormalizer.t (tensor T)) x :
  TorchNormalizer.fit_transform self x
  = (s ← TorchNormalizer.fit self x;
     z ← TorchNormalizer.transform s x; OK (s, z))
  ∧ TorchNormalizer.fit self x = TorchNormalizer.fit TorchNormalizer.new x.
Proof.
  split; [apply norm_fit_transform_eq|].
  unfold TorchNormalizer.fit. simpl.
  destruct (extreme0 smax x); [|done]. simpl. by destruct (extreme0 smin x).
Qed.

(** X3.  When [transform] or [reverse] of the standard scaler returns, the
    result has the shape of the argument: the in-place operations cannot
    broadcast the argument up to the shape of the statistics. *)
Theorem standard_scaler_keeps_shape (s : TorchStandardScaler.t (tensor T)) x z :
  TorchStandardScaler.transform s x = OK z
  ∨ TorchStandardScaler.reverse s x = OK z →
  shape z = shape x.
Proof.
  assert (∀ f g (x1 x2 b1 b2 : tensor T),
            broadcast_inplace f x b1 = OK x1 → broadcast_inplace g x1 b2 = OK x2 →
            shape x2 = shape x) as Htwo.
  { intros f g x1 x2 b1 b2 E1 E2.
    rewrite (broadcast_inplace_shape _ _ _ _ E2).
    apply (broadcast_inplace_shape _ _ _ _ E1). }
  unfold TorchStandardScaler.transform, TorchStandardScaler.reverse.
  destruct s as [[m|] [sd|]]; simpl; intros [Hz|Hz]; try done.
  - destruct (broadcast_inplace ssub x m) as [x1|] eqn:E1; [|done]. simpl in Hz.
    destruct (broadcast_inplace sdiv x1 _) as [x2|] eqn:E2; [|done].
    injection Hz as <-. by eapply Htwo.
  - destruct (broadcast_inplace smul x _) as [x1|] eqn:E1; [|done]. simpl in Hz.
    destruct (broadcast_inplace sadd x1 m) as [x2|] eqn:E2; [|done].
    injection Hz as <-. by eapply Htwo.
  - by destruct (broadcast_inplace ssub x m).
  - by destruct (broadcast_inplace smul x _).
Qed.

Lemma broadcast_inplace_width_mismatch (f : T → T → T) D D' xs (r : list T) :
  D' ≠ D → D ≠ 1 →
  broadcast_inplace f (Mat D' xs) (Mat D [r]) = Raise ShapeMismatch.
Proof.
  intros Hne H1. unfold broadcast_inplace, broadcast. cbn [as_mat].
  destruct (bdim D' D) as [D0|e] eqn:E; unfold bdim in E;
    repeat case_decide; simplify_eq; [|done].
  simpl. rewrite bdim_one_r. simpl.
  rewrite decide_False; [done|]. by intros [= _ ?].
Qed.

(** X4.  A standard scaler fitted on a matrix of [D] columns, [D] other
    than 1, raises on every matrix of another width: [x -= self.mean]
    cannot keep the shape of [x]. *)
Theorem standard_scaler_width_mismatch D D' rows xs :
  D' ≠ D → D ≠ 1 →
  TorchStandardScaler.transform (fitted D rows) (Mat D' xs)
  = Raise ShapeMismatch.
Proof.
  intros Hne H1. unfold TorchStandardScaler.transform, fitted. simpl.
  by rewrite broadcast_inplace_width_mismatch.
Qed.

(** X5.  Fitted on a single column, the standard scaler accepts a matrix of
    any width and standardises every column with the statistics of that one
    column. *)
Theorem standard_scaler_single_column rows D' xs :
  Forall (λ row, length row = D') xs →
  TorchStandardScaler.transform (fitted 1 rows) (Mat D' xs)
  = OK (Mat D'
          (fmap (M:=list)
             (fmap (M:=list)
                (λ v, (v ⊖ vmean (col 0 rows)) ⊘ (vstd false (col 0 rows) ⊕ tiny)))
             xs)).
Proof.
  intros Hxs. unfold TorchStandardScaler.transform, fitted.
  cbn [clone torch_value attr isub idiv add_scalar TorchStandardScaler.mean
       TorchStandardScaler.std mbind result_bind mret result_ret tmap].
  assert (∀ (f : T → T → T) (c : T) (ys : list (list T)),
            Forall (λ row, length row = D') ys →
            broadcast_inplace f (Mat D' ys) (Mat 1 [[c]])
            = OK (Mat D' (fmap (M:=list) (fmap (M:=list) (λ v, f v c)) ys)))
    as Hone.
  { intros f c ys Hys. unfold broadcast_inplace, broadcast. cbn [as_mat].
    rewrite !bdim_one_r. simpl. rewrite expand_length_id.
    rewrite zip_with_replicate_r_eq by done.
    rewrite decide_True by (simpl; by rewrite !length_fmap).
    f_equal. f_equal. apply Forall_fmap_ext_1.
    eapply Forall_impl; [exact Hys|]. intros row E. simpl in *.
    rewrite <- E at 1. rewrite expand_length_id.
    by rewrite zip_with_replicate_r_eq. }
  change (col_stat vmean 1 rows) with [vmean (col 0 rows)].
  change (col_stat (vstd false) 1 rows) with [vstd false (col 0 rows)].
  cbn [fmap list_fmap].
  rewrite Hone by done. cbn [mbind result_bind]. rewrite Hone.
  - cbn [mbind result_bind mret result_ret]. f_equal. f_equal.
    rewrite <- list_fmap_compose.
    apply list_fmap_ext. intros _ row _. simpl.
    by rewrite <- list_fmap_compose.
  - apply Forall_fmap. eapply Forall_impl; [exact Hxs|]. intros row E.
    simpl in *. by rewrite length_fmap.
Qed.

(** X6.  Before any [fit], [transform] and [reverse] raise when they read
    the missing statistic, whatever the argument; on a store the copy of the
    argument has been made by then and nothing else is written. *)
Theorem scalers_raise_before_fit (h : heap T) (l : loc) x :
  h !! l = Some x →
  TorchStandardScaler.transform TorchStandardScaler.new x = Raise NotFitted
  ∧ TorchStandardScaler.reverse TorchStandardScaler.new x = Raise NotFitted
  ∧ TorchNormalizer.transform TorchNormalizer.new x = Raise NotFitted
  ∧ TorchStandardScaler.transform TorchStandardScaler.new l h
    = (Raise NotFitted, <[fresh (dom h) := x]> h)
  ∧ TorchStandardScaler.reverse TorchStandardScaler.new l h
    = (Raise NotFitted, <[fresh (dom h) := x]> h)
  ∧ TorchNormalizer.transform TorchNormalizer.new l h
    = (Raise NotFitted, <[fresh (dom h) := x]> h).
Proof.
  intros Hl. split_and!; try reflexivity.
  - unfold TorchStandardScaler.transform. rewrite bind_run. simpl.
    by erewrite run_fresh1 by done.
  - unfold TorchStandardScaler.reverse. rewrite bind_run. simpl.
    by erewrite run_fresh1 by done.
  - unfold TorchNormalizer.transform. rewrite bind_run. simpl.
    by erewrite run_fresh1 by done.
Qed.
End ScalerShapes.

Lemma standard_scaler_keeps_shape_witness :
  ∃ z, TorchStandardScaler.transform (fitted 2 sample_float) (Mat 2 sample_float) = OK z
    ∧ shape z = [2; 2].
Proof.
  destruct (TorchStandardScaler.transform (fitted 2 sample_float) (Mat 2 sample_float))
    as [z|e] eqn:E.
  - exists z. split; [done|].
    exact (standard_scaler_keeps_shape _ _ z (or_introl E)).
  - vm_compute in E. discriminate E.
Defined.

Lemma standard_scaler_width_mismatch_witness :
  TorchStandardScaler.transform (fitted 2 sample_float) (Mat 3 [[1; 2; 3]]%float)
  = Raise ShapeMismatch.
Proof. apply standard_scaler_width_mismatch; lia. Defined.

Lemma standard_scaler_single_column_witness :
  TorchStandardScaler.transform (fitted 1 [[1]; [3]]%float) (Mat 2 [[2; 4]]%float)
  = OK (Mat 2 [[0; 2 / (1 + 1e-10)]]%float).
Proof.
  rewrite (standard_scaler_single_column [[1]; [3]]%float 2 [[2; 4]]%float)
    by (repeat constructor).
  vm_compute. reflexivity.
Defined.

Lemma scalers_raise_before_fit_witness :
  TorchStandardScaler.transform (M:=heapM float) TorchStandardScaler.new
    1%positive caller_heap
  = (Raise NotFitted, <[fresh (dom caller_heap) := constant_column]> caller_heap).
Proof.
  destruct (scalers_raise_before_fit caller_heap 1%positive constant_column)
    as (_ & _ & _ & Hrun & _); [reflexivity | exact Hrun].
Defined.

(** ** The extremes of a column *)

Lemma mapM_result_OK {A B} (f : A → result B) (g : A → B) (l : list A) :
  Forall (λ j, f j = OK (g j)) l → mapM f l = OK (g <$> l).
Proof.
  induction 1 as [|j l Hj _ IH]; [done|].
  simpl. rewrite Hj. simpl. by rewrite IH.
Qed.

Section Extremes.
Context {T : Type} `{Scalar T}.
Implicit Types (rows : list (list T)).

Lemma vextreme_nonempty (pick : T → T → T) (c : list T) :
  c ≠ [] → vextreme pick c = OK (column_extreme pick c).
Proof. by destruct c. Qed.

Lemma extreme0_mat (pick : T → T → T) D rows :
  rows ≠ [] →
  extreme0 pick (Mat D rows) = OK (Vec (col_stat (column_extreme pick) D rows)).
Proof.
  intros Hne. unfold extreme0. destruct rows as [|row rows]; [done|].
  rewrite (mapM_result_OK _ (λ j, column_extreme pick (col j (row :: rows))));
    [done|].
  apply Forall_forall. intros j _. by apply vextreme_nonempty.
Qed.

Lemma col_stat_nil (f : list T → T) D : col_stat f D [] = replicate D (f []).
Proof.
  unfold col_stat. generalize 0. induction D as [|D IH]; intros k; [done|].
  simpl. by rewrite IH.
Qed.
End Extremes.

Section RealExtremes.
Local Open Scope R_scope.
Implicit Types (l c : list R).

Lemma smax_real (x y : R) : smax x y = if Rltb x y then y else x.
Proof. reflexivity. Qed.

Lemma smin_real (x y : R) : smin x y = if Rltb y x then y else x.
Proof. reflexivity. Qed.

Lemma foldl_smax_real (x : R) v :
  foldl smax x v ∈ x :: v ∧ Forall (λ y, y <= foldl smax x v) (x :: v).
Proof.
  revert x. induction v as [|y v IH]; intros x.
  - simpl. split; [apply list_elem_of_here|].
    apply Forall_cons. split; [lra | constructor].
  - cbn [foldl]. destruct (IH (smax x y)) as [Hin Hall].
    apply Forall_cons in Hall as [Hle Hall].
    rewrite smax_real in *.
    destruct (Rltb x y) eqn:E.
    + apply Rltb_true in E. split; [by apply list_elem_of_further|].
      repeat (apply Forall_cons; split); [lra | lra | done].
    + assert (¬ x < y) as Hge by (intros Hlt; apply Rltb_true in Hlt; congruence).
      split.
      * apply elem_of_cons in Hin as [->|Hin]; [apply list_elem_of_here|].
        by do 2 apply list_elem_of_further.
      * repeat (apply Forall_cons; split); [lra | lra | done].
Qed.

Lemma foldl_smin_real (x : R) v :
  foldl smin x v ∈ x :: v ∧ Forall (λ y, foldl smin x v <= y) (x :: v).
Proof.
  revert x. induction v as [|y v IH]; intros x.
  - simpl. split; [apply list_elem_of_here|].
    apply Forall_cons. split; [lra | constructor].
  - cbn [foldl]. destruct (IH (smin x y)) as [Hin Hall].
    apply Forall_cons in Hall as [Hle Hall].
    rewrite smin_real in *.
    destruct (Rltb y x) eqn:E.
    + apply Rltb_true in E. split; [by apply list_elem_of_further|].
      repeat (apply Forall_cons; split); [lra | lra | done].
    + assert (¬ y < x) as Hge by (intros Hlt; apply Rltb_true in Hlt; congruence).
      split.
      * apply elem_of_cons in Hin as [->|Hin]; [apply list_elem_of_here|].
        by do 2 apply list_elem_of_further.
      * repeat (apply Forall_cons; split); [lra | lra | done].
Qed.

Lemma column_max_real c :
  c ≠ [] →
  column_extreme smax c ∈ c ∧ Forall (λ y, y <= column_extreme smax c) c.
Proof. destruct c as [|x v]; [done|]. intros _. apply foldl_smax_real. Qed.

Lemma column_min_real c :
  c ≠ [] →
  column_extreme smin c ∈ c ∧ Forall (λ y, column_extreme smin c <= y) c.
Proof. destruct c as [|x v]; [done|]. intros _. apply foldl_smin_real. Qed.

(** X7.  Fitted on a matrix that has a row, [TorchNormalizer] stores for
    each column its greatest and its least entry, and [fit_transform]
    returns [(x - min) / (max - min)] entry by entry; in a column that is
    not constant every entry of the result lies between 0 and 1. *)
Theorem normalizer_unit_interval D (rows : list (list R)) :
  rows ≠ [] → Forall (λ row, length row = D) rows →
  ∃ mx mn zs,
    TorchNormalizer.fit_transform TorchNormalizer.new (Mat D rows)
    = OK ({| TorchNormalizer.max := Some (Vec mx);
             TorchNormalizer.min := Some (Vec mn) |}, Mat D zs)
    ∧ length zs = length rows
    ∧ ∀ j, (j < D)%nat →
        ∃ a b, mx !! j = Some a ∧ mn !! j = Some b
          ∧ a ∈ col j rows ∧ b ∈ col j rows
          ∧ Forall (λ x, b <= x <= a) (col j rows)
          ∧ ∀ i row v, rows !! i = Some row → row !! j = Some v →
              ∃ zrow, zs !! i = Some zrow
                ∧ zrow !! j = Some ((v - b) / (a - b))
                ∧ (b < a → 0 <= (v - b) / (a - b) <= 1).
Proof.
  intros Hne Hwf.
  set (mx := col_stat (column_extreme smax) D rows).
  set (mn := col_stat (column_extreme smin) D rows).
  exists mx, mn, (norm_row mx mn <$> rows).
  split.
  { rewrite norm_fit_transform_eq. unfold TorchNormalizer.fit.
    cbn [max_dim0 min_dim0 torch_value]. rewrite !extreme0_mat by done.
    cbn [mbind result_bind mret result_ret TorchNormalizer.max TorchNormalizer.min].
    rewrite norm_transform_mat; [done | apply length_col_stat..| done]. }
  split; [by rewrite length_fmap|].
  intros j Hj. pose proof (col_nonempty j rows Hne) as Hcol.
  destruct (column_max_real _ Hcol) as [Hamax Hmax].
  destruct (column_min_real _ Hcol) as [Hamin Hmin].
  exists (column_extreme smax (col j rows)), (column_extreme smin (col j rows)).
  assert (mx !! j = Some (column_extreme smax (col j rows))) as Emx
    by by apply lookup_col_stat.
  assert (mn !! j = Some (column_extreme smin (col j rows))) as Emn
    by by apply lookup_col_stat.
  split_and!; [done..| |].
  - apply Forall_forall. intros x Hx.
    pose proof (proj1 (Forall_forall _ _) Hmax x Hx).
    pose proof (proj1 (Forall_forall _ _) Hmin x Hx). simpl in *. lra.
  - intros i row v Hi Hv. exists (norm_row mx mn row).
    split; [by rewrite list_lookup_fmap, Hi|].
    split; [exact (lookup_norm_row mx mn row j v _ _ Hv Emx Emn)|].
    intros Hlt.
    pose proof (col_lookup j rows i row v Hi Hv) as Hc.
    pose proof (Forall_lookup_1 _ _ _ _ Hmax Hc) as Hle1.
    pose proof (Forall_lookup_1 _ _ _ _ Hmin Hc) as Hle2. simpl in *.
    split.
    + apply Rmult_le_pos; [lra|]. left. apply Rinv_0_lt_compat. lra.
    + apply (Rmult_le_reg_r (column_extreme smax (col j rows)
                             - column_extreme smin (col j rows))); [lra|].
      unfold Rdiv. rewrite Rmult_assoc, Rinv_l by lra. lra.
Qed.
End RealExtremes.

Lemma normalizer_unit_interval_witness :
  ∃ mx mn zs,
    TorchNormalizer.fit_transform TorchNormalizer.new (Mat 2 sample_real)
    = OK ({| TorchNormalizer.max := Some (Vec mx);
             TorchNormalizer.min := Some (Vec mn) |}, Mat 2 zs)
    ∧ length zs = 2.
Proof.
  destruct (normalizer_unit_interval 2 sample_real)
    as (mx & mn & zs & Hrun & Hlen & _); [done | by repeat constructor |].
  by exists mx, mn, zs.
Defined.

(** ** Empty input *)

(** X8.  On a matrix without rows (binary64): the standard scaler fits and
    stores a NaN for every column, and transforms the matrix to itself;
    [TorchNormalizer] raises in [fit] and in [fit_transform], because the
    maximum over no entry does not exist. *)
Theorem scalers_on_empty_matrix (D : nat) :
  TorchStandardScaler.fit TorchStandardScaler.new (Mat D ([] : list (list float)))
  = OK {| TorchStandardScaler.mean := Some (Mat D [replicate D nan]);
          TorchStandardScaler.std := Some (Mat D [replicate D nan]) |}
  ∧ TorchStandardScaler.fit_transform TorchStandardScaler.new
      (Mat D ([] : list (list float)))
    = OK ({| TorchStandardScaler.mean := Some (Mat D [replicate D nan]);
             TorchStandardScaler.std := Some (Mat D [replicate D nan]) |},
          Mat D [])
  ∧ TorchNormalizer.fit TorchNormalizer.new (Mat D ([] : list (list float)))
    = Raise EmptyReduction
  ∧ TorchNormalizer.fit_transform TorchNormalizer.new
      (Mat D ([] : list (list float)))
    = Raise EmptyReduction.
Proof.
  split_and!; try reflexivity.
  - rewrite std_fit_mat, !col_stat_nil. reflexivity.
  - rewrite std_fit_transform_mat by constructor. rewrite !col_stat_nil.
    reflexivity.
Qed.

(** ** The standard scaler on the responses and back *)

Section ResponsesReal.
Local Open Scope R_scope.
Implicit Types (y z m sd row : list R) (rows zs : list (list R)).

(** X9.  On a vector with an entry (the responses [y] of the loop),
    [fit_transform] subtracts the mean of the vector and divides by its
    population deviation plus 1e-10: the result has mean 0, its deviation
    is [s / (s + 1e-10)], and a constant vector, a vector of one response
    among them, becomes zeros. *)
Theorem standard_scaler_on_responses y :
  y ≠ [] →
  ∃ s z,
    TorchStandardScaler.fit_transform TorchStandardScaler.new (Vec y)
    = OK (s, Vec z)
    ∧ length z = length y
    ∧ (∀ i v, y !! i = Some v →
         z !! i = Some ((v - pop_mean y) / (pop_std y + 1e-10)))
    ∧ pop_mean z = 0
    ∧ pop_std z = pop_std y / (pop_std y + 1e-10)
    ∧ (∀ c, Forall (λ v, v = c) y → Forall (λ v, v = 0) z).
Proof.
  intros Hne. rewrite std_fit_transform_vec, vmean_real, vstd_real.
  eexists _, _. split; [reflexivity|].
  change (λ x : R, (x ⊖ pop_mean y) ⊘ (pop_std y ⊕ tiny))
    with (λ x : R, (x - pop_mean y) / (pop_std y + 1e-10)).
  split; [by rewrite length_fmap|].
  split; [intros i v Hv; by rewrite list_lookup_fmap, Hv|].
  split; [by apply pop_mean_scaled|].
  split; [apply pop_std_scaled; [done | apply pop_std_tiny_pos]|].
  intros c Hc. apply Forall_fmap.
  rewrite (pop_mean_const y c Hne Hc), (pop_std_const y c Hne Hc).
  eapply Forall_impl; [exact Hc|]. intros v ->. simpl. unfold Rdiv. lra.
Qed.

Lemma scale_unscale_row D m sd row :
  length row = D → length m = D → length sd = D →
  Forall (λ s, 0 <= s) sd →
  scale_row m sd (unscale_row m sd row) = row.
Proof.
  intros Hrow Hm Hsd Hpos. apply list_eq. intros j.
  destruct (row !! j) as [v|] eqn:Hv.
  - pose proof (lookup_lt_Some _ _ _ Hv) as Hj.
    destruct (lookup_lt_is_Some_2 m j) as [mj Hmj]; [lia|].
    destruct (lookup_lt_is_Some_2 sd j) as [sj Hsj]; [lia|].
    rewrite (lookup_scale_row m sd _ j _ mj sj
               (lookup_unscale_row m sd row j v mj sj Hv Hmj Hsj) Hmj Hsj).
    f_equal. simpl.
    pose proof (Forall_lookup_1 _ _ _ _ Hpos Hsj) as Hs. simpl in Hs.
    field. lra.
  - apply lookup_ge_None. apply lookup_ge_None in Hv.
    rewrite (length_scale_row m sd _ D); [lia | | done | done].
    by apply length_unscale_row.
Qed.

(** X10.  [transform] undoes [reverse]: for a scaler fitted on a matrix,
    every matrix of the same width goes through [reverse] and then
    [transform] back to itself, constant columns included. *)
Theorem standard_scaler_reverse_then_transform D rows zs :
  Forall (λ row, length row = D) rows →
  Forall (λ row, length row = D) zs →
  ∃ xs,
    TorchStandardScaler.reverse (fitted D rows) (Mat D zs) = OK (Mat D xs)
    ∧ TorchStandardScaler.transform (fitted D rows) (Mat D xs) = OK (Mat D zs).
Proof.
  intros Hrows Hzs.
  set (m := col_stat vmean D rows). set (sd := col_stat (vstd false) D rows).
  assert (length m = D) as Hm by apply length_col_stat.
  assert (length sd = D) as Hsd by apply length_col_stat.
  exists (unscale_row m sd <$> zs). unfold fitted. fold m sd.
  split; [by apply std_reverse_mat|].
  rewrite std_transform_mat; [| done | done |].
  - f_equal. f_equal. rewrite <- list_fmap_compose.
    rewrite <- (list_fmap_id zs) at 2. apply Forall_fmap_ext_1.
    eapply Forall_impl; [exact Hzs|]. intros row E. simpl in *.
    apply (scale_unscale_row D); [done..|]. apply col_stat_std_nonneg.
  - apply Forall_fmap. eapply Forall_impl; [exact Hzs|]. intros row E.
    simpl in *. by apply length_unscale_row.
Qed.
End ResponsesReal.

Lemma standard_scaler_on_responses_witness :
  ∃ s z,
    TorchStandardScaler.fit_transform TorchStandardScaler.new (Vec [7]%R)
    = OK (s, Vec z)
    ∧ Forall (λ v, v = 0%R) z.
Proof.
  destruct (standard_scaler_on_responses [7]%R)
    as (s & z & Hrun & _ & _ & _ & _ & Hconst); [done|].
  exists s, z. split; [exact Hrun|]. apply (Hconst 7%R). by repeat constructor.
Defined.

Lemma standard_scaler_reverse_then_transform_witness :
  ∃ xs,
    TorchStandardScaler.reverse (fitted 2 sample_real) (Mat 2 sample_real)
    = OK (Mat 2 xs)
    ∧ TorchStandardScaler.transform (fitted 2 sample_real) (Mat 2 xs)
      = OK (Mat 2 sample_real).
Proof.
  apply standard_scaler_reverse_then_transform; by repeat constructor.
Defined.

(** ** The acquisition function on other inputs *)

Section AcquisitionShapes.
Context {T : Type} `{Scalar T}.

(** X11.  [UCB] raises when the mean and the deviation of the posterior
    have different lengths and neither has one entry: the two vectors do
    not broadcast. *)
Theorem UCB_length_mismatch (m s : list T) (epsilon : T) :
  length m ≠ length s → length m ≠ 1 → length s ≠ 1 →
  UCB (M:=result) {| mean := Vec m; stddev := Vec s |} epsilon
  = Raise ShapeMismatch.
Proof.
  intros Hne Hm Hs. unfold UCB. simpl. unfold broadcast. cbn [as_mat].
  rewrite length_fmap.
  destruct (bdim (length m) (length s)) as [D|e] eqn:E; unfold bdim in E;
    repeat case_decide; by simplify_eq.
Qed.

(** X12.  The masking step: when every evaluated index is a position of
    the posterior, the masked scores hold -100 at the evaluated indices and
    [mean + 2 * stddev] everywhere else; when one is not, the step raises. *)
Theorem masking_overwrites_evaluated (m s : list T) (idx : list nat) :
  length m = length s →
  (Forall (λ i, i < length m) idx →
   ∃ scores,
     masked_scores {| mean := Vec m; stddev := Vec s |} idx = OK (Vec scores)
     ∧ length scores = length m
     ∧ (∀ i, i ∈ idx → scores !! i = Some sentinel)
     ∧ (∀ i a b, i ∉ idx → m !! i = Some a → s !! i = Some b →
          scores !! i = Some (a ⊕ default_epsilon ⊗ b)))
  ∧ (¬ Forall (λ i, i < length m) idx →
     masked_scores {| mean := Vec m; stddev := Vec s |} idx
     = Raise IndexOutOfRange).
Proof.
  intros E. split.
  - intros Hidx. eexists. split; [by apply masked_scores_vec|].
    assert (length (zip_with (λ a b : T, a ⊕ default_epsilon ⊗ b) m s) = length m)
      as Hlen by by rewrite length_zip_with_l_eq.
    split; [by rewrite length_fill|]. split.
    + intros i Hi. apply lookup_fill_in; [done|]. rewrite Hlen.
      by apply (proj1 (Forall_forall _ _) Hidx).
    + intros i a b Hi Ha Hb. rewrite lookup_fill_out by done.
      by rewrite lookup_zip_with, Ha, Hb.
  - intros Hidx. unfold masked_scores. rewrite UCB_vec by done. simpl.
    rewrite decide_False; [done|]. by rewrite length_zip_with_l_eq.
Qed.
End AcquisitionShapes.

Lemma UCB_length_mismatch_witness :
  UCB (M:=result) {| mean := Vec [1; 2; 3]%float; stddev := Vec [1; 2]%float |}
    default_epsilon
  = Raise ShapeMismatch.
Proof. apply UCB_length_mismatch; simpl; lia. Defined.

Lemma masking_overwrites_evaluated_witness :
  ∃ scores,
    masked_scores {| mean := Vec [1; 2; 3]%float; stddev := Vec [0.5; 0.5; 1]%float |}
      [2; 0] = OK (Vec scores)
    ∧ scores !! 0 = Some sentinel ∧ scores !! 2 = Some sentinel.
Proof.
  destruct (masking_overwrites_evaluated [1; 2; 3]%float [0.5; 0.5; 1]%float [2; 0]
              eq_refl) as [Hin _].
  destruct Hin as (scores & Hrun & _ & Hmask & _).
  { repeat constructor. }
  exists scores. split; [exact Hrun|].
  split; apply Hmask; set_solver.
Defined.

(** X13.  On binary64, [UCB] with coefficient 0 returns the posterior mean
    itself whenever the deviations are finite and no mean is the negative
    zero. *)
Theorem UCB_zero_coefficient_float (m s : list float) :
  length m = length s →
  Forall finite_float s → Forall not_negative_zero m →
  UCB (M:=result) {| mean := Vec m; stddev := Vec s |} 0%float = OK (Vec m).
Proof.
  intros E Hs Hm. rewrite UCB_vec by done. f_equal. f_equal.
  apply list_eq. intros i. rewrite lookup_zip_with.
  destruct (m !! i) as [a|] eqn:Ha; [|done]. simpl.
  destruct (s !! i) as [b|] eqn:Hb; simpl.
  - f_equal. apply float_zero_coefficient.
    + exact (Forall_lookup_1 _ _ _ _ Hs Hb).
    + exact (Forall_lookup_1 _ _ _ _ Hm Ha).
  - apply lookup_ge_None in Hb. apply lookup_lt_Some in Ha. lia.
Qed.

Lemma UCB_zero_coefficient_float_witness :
  UCB (M:=result) {| mean := Vec [1; 2.5]%float; stddev := Vec [0.5; 3]%float |}
    0%float
  = OK (Vec [1; 2.5]%float).
Proof.
  apply UCB_zero_coefficient_float; [reflexivity | |];
    repeat constructor; vm_compute; congruence.
Defined.

(** outside these conditions the mean does not come back: an infinite
    deviation gives a NaN, and the negative zero comes back positive *)
Example UCB_zero_coefficient_edges :
  UCB (M:=result) {| mean := Vec [1]%float; stddev := Vec [infinity]%float |}
    0%float = OK (Vec [nan]%float)
  ∧ UCB (M:=result) {| mean := Vec [-0]%float; stddev := Vec [1]%float |}
      0%float = OK (Vec [0]%float).
Proof. split; vm_compute; reflexivity. Qed.

Section AcquisitionReal.
Local Open Scope R_scope.

(** X14.  With deviations that are not negative, a larger exploration
    coefficient gives scores that are nowhere smaller; with coefficient 0
    or more the scores are nowhere below the mean. *)
Theorem UCB_monotone_in_epsilon (m s : list R) (e1 e2 : R) :
  length m = length s → Forall (λ b, 0 <= b) s → e1 <= e2 →
  ∃ s1 s2,
    UCB (M:=result) {| mean := Vec m; stddev := Vec s |} e1 = OK (Vec s1)
    ∧ UCB (M:=result) {| mean := Vec m; stddev := Vec s |} e2 = OK (Vec s2)
    ∧ Forall2 Rle s1 s2
    ∧ (0 <= e1 → Forall2 Rle m s1).
Proof.
  intros E Hs He. rewrite !UCB_vec by done. eexists _, _.
  split; [reflexivity|]. split; [reflexivity|].
  assert (∀ i b, s !! i = Some b → 0 <= b) as Hpos.
  { intros i b Hb. exact (Forall_lookup_1 _ _ _ _ Hs Hb). }
  split.
  - apply Forall2_same_length_lookup_2.
    { by rewrite !length_zip_with_l_eq. }
    intros i x y. rewrite !lookup_zip_with.
    destruct (m !! i) as [a|]; [|done]. simpl.
    destruct (s !! i) as [b|] eqn:Hb; [|done]. simpl.
    intros [= <-] [= <-]. pose proof (Hpos i b Hb). simpl. nra.
  - intros H0. apply Forall2_same_length_lookup_2.
    { by rewrite length_zip_with_l_eq. }
    intros i x y Hx. rewrite lookup_zip_with, Hx. simpl.
    destruct (s !! i) as [b|] eqn:Hb; [|done]. simpl.
    intros [= <-]. pose proof (Hpos i b Hb). simpl. nra.
Qed.
End AcquisitionReal.

Lemma UCB_monotone_in_epsilon_witness :
  ∃ s1 s2,
    UCB (M:=result) sample_posterior 0%R = OK (Vec s1)
    ∧ UCB (M:=result) sample_posterior 2%R = OK (Vec s2)
    ∧ Forall2 Rle s1 s2.
Proof.
  destruct (UCB_monotone_in_epsilon [1; 2; 3]%R [0.5; 0.5; 1]%R 0%R 2%R)
    as (s1 & s2 & H1 & H2 & Hle & _); [reflexivity | | lra |].
  - repeat constructor; lra.
  - by exists s1, s2.
Defined.

(** ** Which index a pass selects *)

Section SelectionReal.
Local Open Scope R_scope.
Implicit Types (v m s scores : list R) (idx : list nat).

Lemma beats_real (x best : R) : beats x best = Rltb best x.
Proof. reflexivity. Qed.

(** the scan ends on the first position of the greatest entry *)
Lemma argmax_from_first_max best_i (best : R) i v :
  (argmax_from best_i best i v = best_i ∧ Forall (λ x, x <= best) v)
  ∨ ∃ k val,
      argmax_from best_i best i v = (i + k)%nat ∧ v !! k = Some val
      ∧ best < val
      ∧ Forall (λ x, x < val) (take k v) ∧ Forall (λ x, x <= val) v.
Proof.
  revert best_i best i. induction v as [|x v IH]; intros best_i best i.
  - left. by split.
  - cbn [argmax_from]. rewrite beats_real. destruct (Rltb best x) eqn:E.
    + apply Rltb_true in E. right.
      destruct (IH i x (S i)) as [[-> Hall]|(k & val & -> & Hk & Hlt & Hbefore & Hall)].
      * exists 0%nat, x. split_and!; [lia | done | done | constructor |].
        apply Forall_cons. split; [lra | done].
      * exists (S k), val. split_and!; [lia | done | lra | |].
        -- cbn [take]. apply Forall_cons. split; [lra | done].
        -- apply Forall_cons. split; [lra | done].
    + assert (x <= best) as Hle.
      { destruct (Rle_or_lt x best) as [|Hlt]; [done|].
        apply Rltb_true in Hlt. congruence. }
      destruct (IH best_i best (S i))
        as [[-> Hall]|(k & val & -> & Hk & Hlt & Hbefore & Hall)].
      * left. split; [done|]. by apply Forall_cons.
      * right. exists (S k), val. split_and!; [lia | done | done | |].
        -- cbn [take]. apply Forall_cons. split; [lra | done].
        -- apply Forall_cons. split; [lra | done].
Qed.

Lemma vargmax_first_max v r :
  vargmax v = OK r →
  ∃ val, v !! r = Some val
    ∧ Forall (λ x, x <= val) v ∧ Forall (λ x, x < val) (take r v).
Proof.
  destruct v as [|x v]; [done|]. simpl. intros [= <-].
  destruct (argmax_from_first_max 0 x 1 v)
    as [[-> Hall]|(k & val & -> & Hk & Hlt & Hbefore & Hall)].
  - exists x. split_and!; [done | | constructor].
    apply Forall_cons. split; [lra | done].
  - exists val. split_and!; [done | |].
    + apply Forall_cons. split; [lra | done].
    + simpl. apply Forall_cons. split; [lra | done].
Qed.

(** the masked scores of a posterior with an entry, and their argmax *)
Lemma masked_argmax_real m s idx :
  length m = length s → m ≠ [] → Forall (λ i, (i < length m)%nat) idx →
  ∃ best val,
    masked_scores {| mean := Vec m; stddev := Vec s |} idx
    = OK (Vec (fill sentinel (zip_with (λ a b, a + 2 * b) m s) idx))
    ∧ argmax (Vec (fill sentinel (zip_with (λ a b, a + 2 * b) m s) idx)) = OK best
    ∧ (best < length m)%nat
    ∧ fill sentinel (zip_with (λ a b, a + 2 * b) m s) idx !! best = Some val
    ∧ Forall (λ x, x <= val) (fill sentinel (zip_with (λ a b, a + 2 * b) m s) idx)
    ∧ Forall (λ x, x < val)
        (take best (fill sentinel (zip_with (λ a b, a + 2 * b) m s) idx)).
Proof.
  intros E Hne Hidx.
  pose proof (masked_scores_vec m s idx E Hidx) as Hrun.
  change (λ a b : R, a ⊕ default_epsilon ⊗ b) with (λ a b : R, a + 2 * b) in Hrun.
  set (scores := fill sentinel (zip_with (λ a b, a + 2 * b) m s) idx) in *.
  assert (length scores = length m) as Hlen.
  { unfold scores. by rewrite length_fill, length_zip_with_l_eq. }
  destruct (vargmax_OK scores) as [best Hbest].
  { intros Hnil. rewrite Hnil in Hlen. by destruct m. }
  destruct (vargmax_first_max scores best Hbest) as (val & Hval & Hall & Hbefore).
  exists best, val. split_and!; [done | done | | done..].
  rewrite <- Hlen. by apply vargmax_lt.
Qed.

(** X15.  A pass selects the first position of the greatest masked score:
    no masked score is greater than the score at the selected index, and
    every score before it is smaller. *)
Theorem selection_takes_first_maximum m s idx :
  length m = length s → m ≠ [] → Forall (λ i, (i < length m)%nat) idx →
  ∃ scores best val,
    masked_scores {| mean := Vec m; stddev := Vec s |} idx = OK (Vec scores)
    ∧ argmax (Vec scores) = OK best
    ∧ scores !! best = Some val
    ∧ Forall (λ x, x <= val) scores
    ∧ Forall (λ x, x < val) (take best scores).
Proof.
  intros E Hne Hidx.
  destruct (masked_argmax_real m s idx E Hne Hidx)
    as (best & val & Hrun & Hbest & _ & Hval & Hall & Hbefore).
  by eexists _, best, val.
Qed.

(** X16.  When every candidate that is not evaluated scores below -100 and
    some index is evaluated, the pass selects an evaluated index again. *)
Theorem low_scores_select_evaluated_index m s idx :
  length m = length s → idx ≠ [] → Forall (λ i, (i < length m)%nat) idx →
  (∀ i a b, i ∉ idx → m !! i = Some a → s !! i = Some b → a + 2 * b < -100) →
  ∃ scores best,
    masked_scores {| mean := Vec m; stddev := Vec s |} idx = OK (Vec scores)
    ∧ argmax (Vec scores) = OK best
    ∧ best ∈ idx.
Proof.
  intros E Hidx0 Hidx Hlow.
  destruct idx as [|i0 idx']; [done|]. clear Hidx0.
  assert (i0 < length m)%nat as Hi0 by by apply Forall_cons in Hidx as [? _].
  assert (m ≠ []) as Hne by (intros ->; simpl in Hi0; lia).
  destruct (masked_argmax_real m s (i0 :: idx') E Hne Hidx)
    as (best & val & Hrun & Hbest & Hlt & Hval & Hall & _).
  eexists _, best. split; [exact Hrun|]. split; [exact Hbest|].
  destruct (decide (best ∈ i0 :: idx')) as [|Hout]; [done|]. exfalso.
  set (scores := fill sentinel (zip_with (λ a b, a + 2 * b) m s) (i0 :: idx')) in *.
  assert (scores !! i0 = Some sentinel) as Hs0.
  { apply lookup_fill_in; [apply list_elem_of_here|].
    by rewrite length_zip_with_l_eq. }
  pose proof (Forall_lookup_1 _ _ _ _ Hall Hs0) as Hle. simpl in Hle.
  destruct (lookup_lt_is_Some_2 m best Hlt) as [a Ha].
  destruct (lookup_lt_is_Some_2 s best) as [b Hb]; [by rewrite <- E|].
  unfold scores in Hval.
  rewrite lookup_fill_out, lookup_zip_with, Ha, Hb in Hval by done.
  simpl in Hval. injection Hval as <-.
  pose proof (Hlow best a b Hout Ha Hb) as Hlow'.
  change (@sentinel R _) with (-100) in Hle. lra.
Qed.
End SelectionReal.

Lemma selection_takes_first_maximum_witness :
  ∃ scores best,
    masked_scores sample_posterior [2] = OK (Vec scores)
    ∧ argmax (Vec scores) = OK best.
Proof.
  destruct (selection_takes_first_maximum [1; 2; 3]%R [0.5; 0.5; 1]%R [2])
    as (scores & best & val & Hrun & Hbest & _); [done | done | |].
  - repeat constructor.
  - by exists scores, best.
Defined.

Lemma low_scores_select_evaluated_index_witness :
  ∃ scores best,
    masked_scores {| mean := Vec [-200; -200; -200]%R; stddev := Vec [0; 0; 0]%R |}
      [2] = OK (Vec scores)
    ∧ argmax (Vec scores) = OK best
    ∧ best ∈ [2].
Proof.
  apply low_scores_select_evaluated_index; [done | done | repeat constructor |].
  intros i a b Hi Ha Hb.
  destruct i as [|[|[|i]]]; simpl in Ha, Hb; simplify_eq; lra.
Defined.

(** ** The data the loop holds *)

Lemma result_bind_OK {A B} (m : result A) (k : A → result B) (b : B) :
  m ≫= k = OK b → ∃ a, m = OK a ∧ k a = OK b.
Proof. destruct m as [a|e]; [|done]. simpl. eauto. Qed.

Section LoopData.
Context {T : Type} `{Scalar T} {GP : Type}.
Variable fit_gp : tensor T → tensor T → result GP.
Variable predict : GP → tensor T → result (Posterior (tensor T)).
Variable randperm : nat → list nat.
Variable N : nat.
Variables X_ y_ : tensor T.

Lemma initial_pulled n_initial st :
  initial randperm N X_ y_ n_initial = OK st → pulled X_ y_ st.
Proof.
  unfold initial. cbn [clone torch_value]. intros Hrun.
  apply result_bind_OK in Hrun as (Xc & [= <-] & Hrun).
  apply result_bind_OK in Hrun as (X & HX & Hrun).
  apply result_bind_OK in Hrun as (yc & [= <-] & Hrun).
  apply result_bind_OK in Hrun as (y & Hy & Hrun).
  injection Hrun as <-. by split.
Qed.

Lemma trial_pulled s st st' :
  trial fit_gp predict X_ y_ s st = OK st' → pulled X_ y_ st'.
Proof.
  unfold trial. destruct st as [[idx X] y]. intros Hrun.
  apply result_bind_OK in Hrun as (Xs & _ & Hrun).
  apply result_bind_OK in Hrun as ([s' ys] & _ & Hrun).
  apply result_bind_OK in Hrun as (gp & _ & Hrun).
  apply result_bind_OK in Hrun as (Q & _ & Hrun).
  apply result_bind_OK in Hrun as (pred & _ & Hrun).
  apply result_bind_OK in Hrun as (scores & _ & Hrun).
  apply result_bind_OK in Hrun as (best & _ & Hrun).
  apply result_bind_OK in Hrun as (X' & HX & Hrun).
  apply result_bind_OK in Hrun as (y' & Hy & Hrun).
  injection Hrun as <-. by split.
Qed.

Lemma trials_pulled s budget st st' :
  trials fit_gp predict X_ y_ s budget st = OK st' →
  pulled X_ y_ st → pulled X_ y_ st'.
Proof.
  revert st. induction budget as [|budget IH]; intros st Hrun Hst.
  - by injection Hrun as <-.
  - cbn [trials] in Hrun. apply result_bind_OK in Hrun as (st1 & H1 & Hrun).
    eapply IH; [exact Hrun|]. by eapply trial_pulled.
Qed.

Lemma index_select_length (t : tensor T) idx (v : list T) :
  index_select t idx = OK (Vec v) → length v = length idx.
Proof.
  destruct t as [x|u|D rows]; simpl; [done| |].
  - destruct (mapM (λ i, u !! i) idx) as [sel|] eqn:E; [|done].
    intros [= <-]. apply length_mapM in E. done.
  - by destruct (mapM (λ i, rows !! i) idx).
Qed.

Lemma run_pulled n_initial k st :
  run fit_gp predict randperm N X_ y_ n_initial k = OK st → pulled X_ y_ st.
Proof.
  unfold run. intros Hrun.
  apply result_bind_OK in Hrun as (s & _ & Hrun).
  apply result_bind_OK in Hrun as (st0 & H0 & Hrun).
  exact (trials_pulled s k st0 st Hrun (initial_pulled _ _ H0)).
Qed.

(** X17.  Whatever the pool and the surrogate: when the loop has made [k]
    passes, the training inputs are the rows of the pool at the evaluated
    indices and the training responses are the pool responses at the same
    indices, in the order of selection, one response per index. *)
Theorem training_data_follow_indices n_initial k st :
  run fit_gp predict randperm N X_ y_ n_initial k = OK st →
  index_select X_ (evaluated st) = OK st.1.2
  ∧ index_select y_ (evaluated st) = OK st.2
  ∧ ∀ v, st.2 = Vec v → length v = length (evaluated st).
Proof.
  intros Hrun. destruct (run_pulled _ _ _ Hrun) as [HX Hy].
  split_and!; [done..|].
  intros v Hv. rewrite Hv in Hy. by eapply index_select_length.
Qed.
End LoopData.

Lemma training_data_follow_indices_witness :
  ∃ st,
    run flat_fit (flat_predict 0%float 1%float) sample_randperm 3
      (Mat 2 pool_rows_float) (Vec pool_ys_float) 2 1 = OK st
    ∧ index_select (Mat 2 pool_rows_float) (evaluated st) = OK st.1.2
    ∧ index_select (Vec pool_ys_float) (evaluated st) = OK st.2.
Proof.
  destruct (run flat_fit (flat_predict 0%float 1%float) sample_randperm 3
              (Mat 2 pool_rows_float) (Vec pool_ys_float) 2 1) as [st|e] eqn:E.
  - exists st. split; [done|].
    destruct (training_data_follow_indices _ _ _ _ _ _ _ _ _ E) as (HX & Hy & _).
    by split.
  - vm_compute in E. discriminate E.
Defined.

(** ** After the pool is exhausted *)

Section Exhausted.
Context {T : Type} `{OrderedScalar T} {GP : Type}.
Variable fit_gp : tensor T → tensor T → result GP.
Variable predict : GP → tensor T → result (Posterior (tensor T)).
Variable randperm : nat → list nat.
Variables (N D : nat) (rows : list (list T)) (ys : list T).
Hypothesis Hrows : length rows = N.
Hypothesis Hys : length ys = N.
Hypothesis Hwf : Forall (λ row, length row = D) rows.
Hypothesis Hgp : surrogate_ok fit_gp predict.
Hypothesis Hperm : randperm N ≡ₚ seq 0 N.

Lemma fill_all {A} (c : A) (l : list A) idx :
  (∀ i, i < length l → i ∈ idx) → fill c l idx = replicate (length l) c.
Proof.
  intros Hall. apply list_eq. intros i.
  destruct (decide (i < length l)) as [Hi|Hi].
  - rewrite lookup_fill_in by auto. symmetry. by apply lookup_replicate_2.
  - rewrite (proj2 (lookup_ge_None _ _)) by (rewrite length_fill; lia).
    symmetry. apply lookup_ge_None. rewrite length_replicate. lia.
Qed.

Lemma argmax_from_replicate (c : T) best_i i n :
  argmax_from best_i c i (replicate n c) = best_i.
Proof.
  revert i. induction n as [|n IH]; intros i; [done|].
  simpl. by rewrite beats_irrefl.
Qed.

(** with every candidate masked, the pass appends index 0 *)
Lemma trial_exhausted st :
  0 < N → state_ok N D st → (∀ i, i < N → i ∈ evaluated st) →
  ∃ st',
    trial fit_gp predict (Mat D rows) (Vec ys) (fitted D rows) st = OK st'
    ∧ evaluated st' = evaluated st ++ [0]
    ∧ state_ok N D st'.
Proof.
  intros HN Hst Hall.
  destruct (trial_OK fit_gp predict N D rows ys Hrows Hys Hwf Hgp st HN Hst)
    as (gp & Q & m & s & best & st' & _ & Hm & Hs & Hbest & _ & Hrun & Hidx & Hst').
  exists st'. split; [done|]. split; [|done].
  assert (length (zip_with (λ a b : T, a ⊕ default_epsilon ⊗ b) m s) = N) as Hlen
    by (rewrite length_zip_with_l_eq; congruence).
  rewrite fill_all, Hlen in Hbest by (by rewrite Hlen).
  destruct N as [|n]; [lia|]. simpl in Hbest.
  rewrite argmax_from_replicate in Hbest. injection Hbest as <-. done.
Qed.

(** X18.  When the initial sample takes the whole pool ([n_initial ≥ N]),
    every pass finds all scores masked and appends index 0: the evaluated
    indices are the permutation followed by [op_budget] zeros. *)
Theorem exhausted_pool_selects_first_candidate op_budget n_initial :
  0 < N → N ≤ n_initial →
  ∃ st,
    campaign fit_gp predict randperm N (Mat D rows) (Vec ys) op_budget n_initial
    = OK st
    ∧ evaluated st = randperm N ++ replicate op_budget 0.
Proof.
  intros HN Hn. unfold campaign.
  pose proof (randperm_range randperm N Hperm) as Hrange.
  assert (∀ k, ∃ st,
            run fit_gp predict randperm N (Mat D rows) (Vec ys) n_initial k = OK st
            ∧ evaluated st = randperm N ++ replicate k 0
            ∧ state_ok N D st) as Hpasses.
  { induction k as [|k (st & Erun & Hidx & Hst)].
    - destruct (initial_OK randperm N D rows ys Hrows Hys Hwf n_initial Hrange)
        as (st & Einit & Eidx & Hst).
      exists st. rewrite run_unfold, Einit. split; [done|]. split; [|done].
      rewrite Eidx, take_ge, app_nil_r; [done|].
      by rewrite Hperm, length_seq.
    - destruct (trial_exhausted st HN Hst) as (st' & Etrial & Eidx & Hst').
      { intros i Hi. rewrite Hidx. apply elem_of_app. left.
        rewrite Hperm. apply elem_of_seq. lia. }
      exists st'. rewrite run_succ, Erun by done. split; [done|].
      split; [|done]. rewrite Eidx, Hidx, <- app_assoc. f_equal.
      by rewrite replicate_S_end. }
  destruct (Hpasses op_budget) as (st & Erun & Hidx & _). by exists st.
Qed.
End Exhausted.

Lemma exhausted_pool_selects_first_candidate_witness :
  ∃ st,
    campaign flat_fit (flat_predict 0%float 1%float) sample_randperm 3
      (Mat 2 pool_rows_float) (Vec pool_ys_float) 2 5 = OK st
    ∧ evaluated st = [2; 0; 1; 0; 0].
Proof.
  apply (exhausted_pool_selects_first_candidate flat_fit
           (flat_predict 0%float 1%float) sample_randperm 3 2 pool_rows_float
           pool_ys_float eq_refl eq_refl pool_rows_float_wf (flat_surrogate_ok _ _)
           sample_randperm_perm 2 5); lia.
Defined.

(** ** The running best response *)

Section TraceFacts.
Context {T : Type} `{Scalar T}.
Implicit Types (y : list T) (best : T).

Lemma length_accumulate_from best y :
  length (accumulate_from best y) = length y.
Proof.
  revert best. induction y as [|x y IH]; intros best; [done|].
  simpl. by rewrite IH.
Qed.

Lemma length_maximum_accumulate y : length (maximum_accumulate y) = length y.
Proof. destruct y; [done|]. simpl. by rewrite length_accumulate_from. Qed.

Lemma np_maximum_nan_l (a b : T) :
  isnan a = true → isnan (np_maximum a b) = true.
Proof. intros Ha. unfold np_maximum. by rewrite Ha. Qed.

Lemma np_maximum_nan_r (a b : T) :
  isnan b = true → isnan (np_maximum a b) = true.
Proof.
  unfold np_maximum. intros Hb. destruct (isnan a) eqn:Ha; [done|].
  by rewrite Hb.
Qed.

Lemma accumulate_from_nan best y :
  isnan best = true → Forall (λ b, isnan b = true) (accumulate_from best y).
Proof.
  revert best. induction y as [|x y IH]; intros best Hb; [constructor|].
  simpl. constructor; [by apply np_maximum_nan_l | apply IH; by apply np_maximum_nan_l].
Qed.

Lemma accumulate_from_poisoned best y k x :
  y !! k = Some x → isnan x = true →
  ∀ j b, k ≤ j → accumulate_from best y !! j = Some b → isnan b = true.
Proof.
  revert best k. induction y as [|x0 y IH]; intros best k Hk Hx j b Hj Hb; [done|].
  destruct k as [|k].
  - injection Hk as ->. simpl in Hb.
    pose proof (np_maximum_nan_r best x Hx) as Hn.
    destruct j as [|j]; [by injection Hb as <-|]. simpl in Hb.
    exact (Forall_lookup_1 _ _ _ _ (accumulate_from_nan _ y Hn) Hb).
  - destruct j as [|j]; [lia|]. simpl in Hk, Hb.
    eapply (IH _ k Hk Hx j b); [lia | exact Hb].
Qed.

(** X19.  One NaN among the responses turns the rest of the trace into
    NaNs: from the position of a NaN response on, every entry of the
    running best is a NaN. *)
Theorem running_best_after_nan y k x j b :
  y !! k = Some x → isnan x = true →
  k ≤ j → maximum_accumulate y !! j = Some b →
  isnan b = true.
Proof.
  intros Hk Hx Hj Hb. destruct y as [|x0 y]; [done|].
  destruct k as [|k].
  - injection Hk as ->. destruct j as [|j]; [by injection Hb as <-|].
    simpl in Hb.
    exact (Forall_lookup_1 _ _ _ _ (accumulate_from_nan _ y Hx) Hb).
  - destruct j as [|j]; [lia|]. simpl in Hk, Hb.
    eapply (accumulate_from_poisoned x0 y k x Hk Hx j b); [lia | exact Hb].
Qed.
End TraceFacts.

Lemma running_best_after_nan_witness :
  maximum_accumulate [1; nan; 3]%float = [1; nan; nan]%float
  ∧ PrimFloat.is_nan nan = true.
Proof.
  split; [vm_compute; reflexivity|].
  exact (running_best_after_nan [1; nan; 3]%float 1 nan 2 nan
           eq_refl eq_refl ltac:(lia) eq_refl).
Defined.

(** on binary64: a later response that compares equal replaces the running
    best, which only the sign of a zero can show *)
Example running_best_float :
  maximum_accumulate [1; 3; 2; 5]%float = [1; 3; 3; 5]%float
  ∧ maximum_accumulate [-0; 0; -0]%float = [-0; 0; -0]%float.
Proof. split; vm_compute; reflexivity. Qed.

Section TraceReal.
Local Open Scope R_scope.
Implicit Types (y : list R) (best : R).

Lemma np_maximum_real_bounds (a b : R) :
  (np_maximum a b = a ∨ np_maximum a b = b)
  ∧ a <= np_maximum a b ∧ b <= np_maximum a b.
Proof.
  unfold np_maximum. simpl. destruct (Rltb b a) eqn:E.
  - apply Rltb_true in E. split_and!; [by left | lra | lra].
  - assert (a <= b).
    { destruct (Rle_or_lt a b) as [|Hlt]; [done|].
      apply Rltb_true in Hlt. congruence. }
    split_and!; [by right | lra | lra].
Qed.

Lemma accumulate_from_prefix_max best y i b :
  accumulate_from best y !! i = Some b →
  (b = best ∨ b ∈ take (S i) y)
  ∧ best <= b ∧ Forall (λ x, x <= b) (take (S i) y).
Proof.
  revert best i. induction y as [|x y IH]; intros best i Hb; [done|].
  destruct (np_maximum_real_bounds best x) as (Hor & Hl & Hr).
  destruct i as [|i]; simpl in Hb.
  - injection Hb as <-. split_and!; [| done |].
    + destruct Hor as [->| ->]; [by left|]. right. simpl. apply list_elem_of_here.
    + simpl. apply Forall_cons. split; [done | constructor].
  - destruct (IH _ _ Hb) as (Hin & Hle & Hall).
    split_and!; [| lra |].
    + destruct Hin as [->|Hin].
      * destruct Hor as [->| ->]; [by left|]. right. apply list_elem_of_here.
      * right. by apply list_elem_of_further.
    + cbn [take]. apply Forall_cons. split; [lra | done].
Qed.

Lemma maximum_accumulate_prefix_max y i b :
  maximum_accumulate y !! i = Some b →
  b ∈ take (S i) y ∧ Forall (λ x, x <= b) (take (S i) y).
Proof.
  destruct y as [|x y]; [done|]. destruct i as [|i]; simpl.
  - intros [= <-]. split; [apply list_elem_of_here|].
    apply Forall_cons. split; [lra | constructor].
  - intros Hb. destruct (accumulate_from_prefix_max x y i b Hb) as (Hin & Hle & Hall).
    split.
    + destruct Hin as [->|Hin]; [apply list_elem_of_here|].
      by apply list_elem_of_further.
    + apply Forall_cons. by split.
Qed.

(** X20.  The running best has one entry per response, and entry [i] is
    the greatest of the first [i + 1] responses: it is one of them and none
    of them is greater. *)
Theorem running_best_is_prefix_maximum y :
  length (maximum_accumulate y) = length y
  ∧ ∀ i b, maximum_accumulate y !! i = Some b →
      b ∈ take (S i) y ∧ Forall (λ x, x <= b) (take (S i) y).
Proof.
  split; [apply length_maximum_accumulate|].
  intros i b. apply maximum_accumulate_prefix_max.
Qed.

(** X21.  The running best never decreases, and its last entry is the
    greatest response of all. *)
Theorem running_best_never_decreases y i j a b :
  (i ≤ j)%nat →
  maximum_accumulate y !! i = Some a → maximum_accumulate y !! j = Some b →
  a <= b
  ∧ ∀ c, last (maximum_accumulate y) = Some c → c ∈ y ∧ Forall (λ x, x <= c) y.
Proof.
  intros Hij Ha Hb. split.
  - destruct (maximum_accumulate_prefix_max y i a Ha) as [Hin _].
    destruct (maximum_accumulate_prefix_max y j b Hb) as [_ Hall].
    assert (a ∈ take (S j) y) as Hin'.
    { apply list_elem_of_lookup in Hin as [n Hn].
      apply lookup_take_Some in Hn as [Hn Hlt].
      apply list_elem_of_lookup. exists n. apply lookup_take_Some. split; [done|lia]. }
    exact (proj1 (Forall_forall _ _) Hall a Hin').
  - intros c Hc. rewrite last_lookup, length_maximum_accumulate in Hc.
    destruct (maximum_accumulate_prefix_max y _ c Hc) as [Hin Hall].
    assert (take (S (pred (length y))) y = y) as E by (apply take_ge; lia).
    by rewrite E in Hin, Hall.
Qed.
End TraceReal.

Lemma running_best_never_decreases_witness :
  maximum_accumulate [1; 3; 2]%R
  = [1; np_maximum 1 3; np_maximum (np_maximum 1 3) 2]%R
  ∧ (1 <= np_maximum (np_maximum 1 3) 2)%R.
Proof.
  split; [reflexivity|].
  exact (proj1 (running_best_never_decreases [1; 3; 2]%R 0 2 _ _
                  ltac:(lia) eq_refl eq_refl)).
Defined.

(** ** The trace of a campaign *)

Section CampaignTrace.
Local Open Scope R_scope.
Context {GP : Type}.
Variable fit_gp : tensor R → tensor R → result GP.
Variable predict : GP → tensor R → result (Posterior (tensor R)).
Variable randperm : nat → list nat.
Variable N : nat.
Variable X_ : tensor R.
Variable ys : list R.

(** X22.  The responses the loop ends with are a vector with one entry
    per evaluated index, and entry [i] of their running best, which the
    last cell plots, is the greatest pool response among the first [i + 1]
    evaluated candidates. *)
Theorem best_trace_of_campaign n_initial k st :
  run fit_gp predict randperm N X_ (Vec ys) n_initial k = OK st →
  ∃ v, st.2 = Vec v
    ∧ length (maximum_accumulate v) = length (evaluated st)
    ∧ ∀ i b, maximum_accumulate v !! i = Some b →
        (∃ p j, (p ≤ i)%nat ∧ evaluated st !! p = Some j ∧ ys !! j = Some b)
        ∧ ∀ p j x, (p ≤ i)%nat → evaluated st !! p = Some j → ys !! j = Some x →
            x <= b.
Proof.
  intros Hrun. destruct (run_pulled _ _ _ _ _ _ _ _ _ Hrun) as [_ Hy].
  simpl in Hy.
  destruct (mapM (λ i, ys !! i) (evaluated st)) as [v|] eqn:E; [|done].
  injection Hy as Hy. exists v. split; [done|].
  apply mapM_Some in E.
  split; [rewrite length_maximum_accumulate; symmetry; by eapply Forall2_length|].
  intros i b Hb.
  destruct (maximum_accumulate_prefix_max v i b Hb) as [Hin Hall]. split.
  - apply list_elem_of_lookup in Hin as [p Hp].
    apply lookup_take_Some in Hp as [Hp Hlt].
    destruct (Forall2_lookup_r _ _ _ _ _ E Hp) as (j & Hj & Hyj).
    exists p, j. split_and!; [lia | done | done].
  - intros p j x Hp Hj Hx.
    destruct (Forall2_lookup_l _ _ _ _ _ E Hj) as (x' & Hv & Hyj).
    assert (x' = x) as -> by congruence.
    apply (proj1 (Forall_forall _ _) Hall).
    apply list_elem_of_lookup. exists p. apply lookup_take_Some. split; [done|lia].
Qed.
End CampaignTrace.

Lemma pool_rows_real_wf : Forall (λ row, length row = 2) pool_rows_real.
Proof. by repeat constructor. Qed.

Lemma best_trace_of_campaign_witness :
  ∃ st v,
    run flat_fit (flat_predict 0%R 1%R) sample_randperm 3
      (Mat 2 pool_rows_real) (Vec pool_ys_real) 2 1 = OK st
    ∧ st.2 = Vec v
    ∧ length (maximum_accumulate v) = length (evaluated st).
Proof.
  destruct (run_total flat_fit (flat_predict 0%R 1%R) sample_randperm 3 2
              pool_rows_real pool_ys_real eq_refl eq_refl pool_rows_real_wf
              (flat_surrogate_ok _ _) 2 1)
    as (st & Erun & _ & _); [lia | |].
  - apply randperm_range, sample_randperm_perm.
  - destruct (best_trace_of_campaign _ _ _ _ _ _ _ _ _ Erun) as (v & Hv & Hlen & _).
    by exists st, v.
Defined.

(** ** What the surrogate is given *)

Section TrainingData.
Local Open Scope R_scope.
Context {GP : Type}.
Variable fit_gp : tensor R → tensor R → result GP.
Variable predict : GP → tensor R → result (Posterior (tensor R)).
Variables (D : nat) (rows : list (list R)) (ys : list R).

(** X23.  In a pass that returns, the surrogate is fitted on the training
    inputs standardised with the statistics of the whole pool and on the
    training responses standardised with their own statistics, which have
    mean 0; it is then asked about the standardised pool, whose columns
    have mean 0. *)
Theorem surrogate_sees_standardised_data idx X y st' :
  Forall (λ row, length row = D) rows → rows ≠ [] →
  Forall (λ row, length row = D) X → y ≠ [] →
  trial fit_gp predict (Mat D rows) (Vec ys) (fitted D rows) (idx, Mat D X, Vec y)
  = OK st' →
  ∃ Xs z Qs gp pred,
    fit_gp (Mat D Xs) (Vec z) = OK gp
    ∧ predict gp (Mat D Qs) = OK pred
    ∧ Xs = scale_row (col_stat vmean D rows) (col_stat (vstd false) D rows) <$> X
    ∧ Qs = scale_row (col_stat vmean D rows) (col_stat (vstd false) D rows) <$> rows
    ∧ z = (λ v, (v - pop_mean y) / (pop_std y + 1e-10)) <$> y
    ∧ pop_mean z = 0
    ∧ ∀ j, (j < D)%nat → pop_mean (col j Qs) = 0.
Proof.
  intros Hrows Hne HX Hy. unfold trial, fitted.
  rewrite !std_transform_mat by (done || apply length_col_stat).
  rewrite std_fit_transform_vec, vmean_real, vstd_real.
  cbn [mbind result_bind]. intros Hrun.
  apply result_bind_OK in Hrun as (gp & Hgp & Hrun).
  apply result_bind_OK in Hrun as (pred & Hpred & _).
  eexists _, _, _, gp, pred. split; [exact Hgp|]. split; [exact Hpred|].
  split; [reflexivity|]. split; [reflexivity|]. split; [reflexivity|].
  split; [by apply (pop_mean_scaled y)|].
  intros j Hj.
  rewrite (col_scale_rows D j _ _ rows (pop_mean (col j rows)) (pop_std (col j rows)))
    by (done || by apply col_stat_mean_real || by apply col_stat_std_real).
  apply (pop_mean_scaled (col j rows)). by apply col_nonempty.
Qed.
End TrainingData.

Lemma surrogate_sees_standardised_data_witness :
  ∃ z gp,
    flat_fit (T:=R)
      (Mat 2 (scale_row (col_stat vmean 2 pool_rows_real)
                (col_stat (vstd false) 2 pool_rows_real) <$> [[0; 1]]%R))
      (Vec z) = OK gp
    ∧ pop_mean z = 0%R.
Proof.
  destruct (trial_OK flat_fit (flat_predict 0%R 1%R) 3 2 pool_rows_real
              pool_ys_real eq_refl eq_refl pool_rows_real_wf (flat_surrogate_ok _ _)
              ([2], Mat 2 [[0; 1]]%R, Vec [3]%R))
    as (_ & _ & _ & _ & _ & st' & _ & _ & _ & _ & _ & Hrun & _); [lia | |].
  { exists [2], [[0; 1]]%R, [3]%R. split; [done|]. split; by repeat constructor. }
  destruct (surrogate_sees_standardised_data flat_fit (flat_predict 0%R 1%R) 2
              pool_rows_real pool_ys_real [2] [[0; 1]]%R [3]%R st'
              pool_rows_real_wf)
    as (Xs & z & Qs & gp & pred & Hfit & _ & -> & _ & _ & Hmean & _);
    [done | by repeat constructor | done | exact Hrun |].
  by exists z, gp.
Defined.

(** ** An empty pool *)

Section EmptyPool.
Context {T : Type} `{Scalar T} {GP : Type}.
Variable fit_gp : tensor T → tensor T → result GP.
Variable predict : GP → tensor T → result (Posterior (tensor T)).
Variable randperm : nat → list nat.
Variable D : nat.

(** X24.  Over a pool without candidates the campaign returns only for a
    budget of 0, with no index; with any budget above 0 the first pass
    raises when it takes the argmax of no score. *)
Theorem empty_pool_raises op_budget n_initial :
  surrogate_ok fit_gp predict → randperm 0 ≡ₚ seq 0 0 →
  campaign fit_gp predict randperm 0 (Mat D []) (Vec []) 0 n_initial
  = OK ([], Mat D [], Vec [])
  ∧ campaign fit_gp predict randperm 0 (Mat D []) (Vec []) (S op_budget) n_initial
    = Raise EmptyReduction.
Proof.
  intros [Hfit Hpred] Hperm. simpl in Hperm. apply Permutation_nil_r in Hperm.
  assert (initial randperm 0 (Mat D []) (Vec ([] : list T)) n_initial
          = OK ([], Mat D [], Vec [])) as Hinit.
  { unfold initial. rewrite Hperm, take_nil. reflexivity. }
  unfold campaign, run. rewrite std_fit_mat. cbn [mbind result_bind].
  rewrite Hinit. cbn [mbind result_bind]. split; [reflexivity|].
  cbn [trials].
  assert (trial fit_gp predict (Mat D []) (Vec []) (fitted D [])
            ([], Mat D [], Vec []) = Raise EmptyReduction) as Htrial.
  { unfold trial, fitted.
    rewrite !std_transform_mat by (constructor || apply length_col_stat).
    rewrite std_fit_transform_vec. cbn [mbind result_bind fmap list_fmap].
    match goal with
    | |- context [fit_gp ?Xs ?y] => destruct (Hfit Xs y) as [gp ->]
    end.
    cbn [mbind result_bind].
    destruct (Hpred gp D []) as (m & s & -> & Hm & Hs).
    destruct m; [|done]. destruct s; [|done]. reflexivity. }
  fold (fitted D ([] : list (list T))). by rewrite Htrial.
Qed.
End EmptyPool.

Lemma empty_pool_raises_witness :
  campaign flat_fit (flat_predict 0%float 1%float) (seq 0) 0
    (Mat 2 []) (Vec []) 1 10
  = Raise EmptyReduction.
Proof.
  exact (proj2 (empty_pool_raises flat_fit (flat_predict 0%float 1%float) (seq 0)
                  2 0 10 (flat_surrogate_ok _ _) (Permutation_refl _))).
Defined.

(** ** Broadcasting in the normalizer, and NaN scores *)

Section NormalizerBroadcast.
Context {T : Type} `{Scalar T}.

(** X25.  Unlike the standard scaler, [TorchNormalizer.transform] does not
    keep the shape of its argument: a vector of one entry is broadcast
    against the fitted columns and comes back with one entry per column. *)
Theorem normalizer_broadcasts_single_entry (mx mn : list T) (v : T) :
  length mx = length mn →
  TorchNormalizer.transform
    {| TorchNormalizer.max := Some (Vec mx); TorchNormalizer.min := Some (Vec mn) |}
    (Vec [v])
  = OK (Vec (zip_with (λ a b, (v ⊖ b) ⊘ (a ⊖ b)) mx mn)).
Proof.
  intros E. unfold TorchNormalizer.transform.
  cbn [clone torch_value attr tsub tdiv TorchNormalizer.max TorchNormalizer.min
       mbind result_bind mret result_ret].
  assert (broadcast ssub (Vec [v]) (Vec mn) = OK (Vec ((λ b, v ⊖ b) <$> mn))) as ->.
  { destruct (decide (length mn = 1)) as [E1|E1].
    - destruct mn as [|b [|b' mn']]; simpl in E1; try lia.
      by rewrite broadcast_vec.
    - unfold broadcast. cbn [as_mat length].
      assert (bdim 1 (length mn) = OK (length mn)) as ->.
      { unfold bdim. repeat case_decide; congruence. }
      cbn [mbind result_bind]. rewrite bdim_same.
      cbn [mbind result_bind rank expand of_mat zip_with replicate Nat.max].
      rewrite expand_length_id. f_equal. f_equal.
      by rewrite zip_with_replicate_l by done. }
  cbn [mbind result_bind]. rewrite broadcast_vec by congruence.
  cbn [mbind result_bind].
  rewrite broadcast_vec by (rewrite length_fmap, length_zip_with_l_eq; congruence).
  f_equal. f_equal. rewrite zip_with_fmap_l.
  apply list_eq. intros i. rewrite !lookup_zip_with.
  destruct (mn !! i) as [b|] eqn:Hb; simpl.
  - destruct (mx !! i) as [a|] eqn:Ha; simpl; [done|].
    apply lookup_ge_None in Ha. apply lookup_lt_Some in Hb. lia.
  - by destruct (mx !! i).
Qed.

Lemma argmax_from_nan_best best_i (best : T) i v :
  isnan best = true → argmax_from best_i best i v = best_i.
Proof.
  intros Hb. revert i. induction v as [|x v IH]; intros i; [done|].
  simpl. unfold beats. rewrite Hb. simpl. apply IH.
Qed.

Lemma argmax_from_first_nan best_i (best : T) i v k x :
  isnan best = false → v !! k = Some x → isnan x = true →
  Forall (λ e, isnan e = false) (take k v) →
  argmax_from best_i best i v = i + k.
Proof.
  revert best_i best i k. induction v as [|e v IH]; intros best_i best i k Hb Hk Hx Hno;
    [done|].
  destruct k as [|k].
  - injection Hk as ->. simpl. unfold beats. rewrite Hb, Hx. simpl.
    rewrite argmax_from_nan_best by done. lia.
  - simpl in Hk. cbn [take] in Hno. apply Forall_cons in Hno as [He Hno].
    simpl. destruct (beats e best).
    + rewrite (IH i e (S i) k He Hk Hx Hno). lia.
    + rewrite (IH best_i best (S i) k Hb Hk Hx Hno). lia.
Qed.

(** X26.  A score that is a NaN is selected before every number: the
    argmax of scores that hold a NaN is the position of the first NaN. *)
Theorem argmax_selects_first_nan (scores : list T) k x :
  scores !! k = Some x → isnan x = true →
  Forall (λ e, isnan e = false) (take k scores) →
  argmax (Vec scores) = OK k.
Proof.
  intros Hk Hx Hno. unfold argmax. cbn [flatten].
  destruct scores as [|x0 v]; [done|]. cbn [vargmax]. f_equal.
  destruct k as [|k].
  - injection Hk as ->. by apply argmax_from_nan_best.
  - simpl in Hk. cbn [take] in Hno. apply Forall_cons in Hno as [H0 Hno].
    by rewrite (argmax_from_first_nan 0 x0 1 v k x H0 Hk Hx Hno).
Qed.
End NormalizerBroadcast.

Lemma normalizer_broadcasts_single_entry_witness :
  TorchNormalizer.transform
    {| TorchNormalizer.max := Some (Vec [3; 30]%float);
       TorchNormalizer.min := Some (Vec [1; 10]%float) |}
    (Vec [2]%float)
  = OK (Vec [0.5; -0.4]%float).
Proof.
  rewrite (normalizer_broadcasts_single_entry [3; 30]%float [1; 10]%float 2%float)
    by reflexivity.
  vm_compute. reflexivity.
Defined.

Lemma argmax_selects_first_nan_witness :
  argmax (Vec [1; nan; 7; nan]%float) = OK 1.
Proof.
  apply (argmax_selects_first_nan [1; nan; 7; nan]%float 1 nan);
    [reflexivity | reflexivity | by repeat constructor].
Defined.
